(** * GeoJSON county boundaries over a night-light raster

    A shallow embedding of the notebook [Geojson and Rasterio Demo.ipynb]:
    the county lookup table, the bounding-box window into the raster, the
    local affine mapping of the window, the rasterized polygon mask and the
    masked statistics.

    Longitudes, latitudes and pixel intensities are Python floats in the
    notebook; here they are exact rationals ([Q]), so rounding error of
    the floating-point operations is outside the model.  The one irrational
    operation, the square root taken by [std], lands in [R]. *)

From Stdlib Require Import Reals Qreals Lra.
From Stdlib Require Import ZArith QArith Qround Qabs Qminmax Lia Lqa.
From stdpp Require Import gmap strings list.

(** ** Python outcomes

    A notebook cell either produces a value or stops with an exception.
    Only the exceptions that the modelled calls can raise are listed. *)

Inductive exn : Type :=
  | KeyError                      (* a missing key of a [dict] / [Series] *)
  | ValueError                    (* [int] of a malformed string, empty unpack, empty reduction *)
  | MaskError                     (* [numpy.ma]: mask and data not compatible *)
  | TransformNotInvertibleError   (* [affine]: degenerate transform *)
  | RasterioIOError.              (* [rasterio]: the windowed read failed *)

Inductive outcome (A : Type) : Type :=
  | Returned (x : A)
  | Raised (err : exn).
Arguments Returned {A} x.
Arguments Raised {A} err.

#[global] Instance outcome_ret : MRet outcome := fun A x => Returned x.
#[global] Instance outcome_bind : MBind outcome := fun A B k m =>
  match m with
  | Returned x => k x
  | Raised err => Raised err
  end.

Definition raises {A} (m : outcome A) : Prop := ∃ err, m = Raised err.

#[global] Instance exn_eq_dec : EqDecision exn.
Proof. solve_decision. Defined.

#[global] Instance outcome_eq_dec `{EqDecision A} : EqDecision (outcome A).
Proof. solve_decision. Defined.

(** ** The [affine] package: [Affine(a, b, c, d, e, f)]

    [x' = a*x + b*y + c], [y' = d*x + e*y + f]; for a raster, [(x, y)] is
    [(col, row)] and [(x', y')] is [(longitude, latitude)]. *)

Module Affine.
Local Open Scope Q_scope.

Record t : Type := Affine { a : Q; b : Q; c : Q; d : Q; e : Q; f : Q }.

(** [self * (x, y)] *)
Definition mul (self : t) (p : Q * Q) : Q * Q :=
  let '(x, y) := p in
  (a self * x + b self * y + c self, d self * x + e self * y + f self).

Definition determinant (self : t) : Q := a self * e self - b self * d self.

(** [~self]: the library refuses a degenerate transform and otherwise
    builds the inverse from the reciprocal of the determinant. *)
Definition invert (self : t) : outcome t :=
  if Qeq_bool (determinant self) 0 then Raised TransformNotInvertibleError
  else
    let idet := / determinant self in
    let ra := e self * idet in
    let rb := - b self * idet in
    let rd := - d self * idet in
    let re := a self * idet in
    Returned (Affine ra rb (- c self * ra - f self * rb)
                     rd re (- c self * rd - f self * re)).

(** North-up, axis-aligned imagery: no rotation, columns grow eastwards,
    rows grow southwards. *)
Definition north_up (self : t) : Prop :=
  b self == 0 ∧ d self == 0 ∧ 0 < a self ∧ e self < 0.

(** No rotation or shear, and a grid that is not collapsed. *)
Definition axis_aligned (self : t) : Prop :=
  b self == 0 ∧ d self == 0 ∧ ¬ a self == 0 ∧ ¬ e self == 0.
End Affine.

(** ** The opened raster file

    Only what the notebook reads from [raster_file] is kept: its affine
    mapping and the size of the pixel grid. *)

Record DatasetReader : Type :=
  { affine : Affine.t; height : Z; width : Z }.

(** The pixel coordinates [(col, row)] of a point before rounding:
    [~affine * (x, y)]. *)
Definition pixel_coords (raster_file : DatasetReader) (x y : Q) : outcome (Q * Q) :=
  inv ← Affine.invert (affine raster_file);
  mret (Affine.mul inv (x, y)).

(** Modelled from the spec: [raster_file.index] belongs to [rasterio], not
    to the notebook.  The notebook describes it as accepting
    [(longitude, latitude)] and returning the [(row, col)] indices of the
    corresponding pixel, and the design section as inverting the raster's
    affine transform and flooring; that is what is written here. *)
Definition index (raster_file : DatasetReader) (x y : Q) : outcome (Z * Z) :=
  '(col, row) ← pixel_coords raster_file x y;
  mret (Qfloor row, Qfloor col).

(** ** The pixel window of a bounding box (cell 14)

    [((row_start, row_stop), (col_start, col_stop))], half-open on both
    axes as [read] takes it. *)

Definition window : Type := (Z * Z) * (Z * Z).

Definition row_start (w : window) : Z := fst (fst w).
Definition row_stop (w : window) : Z := snd (fst w).
Definition col_start (w : window) : Z := fst (snd w).
Definition col_stop (w : window) : Z := snd (snd w).

(** [(lon_min, lat_min, lon_max, lat_max)], as [shapely]'s [bounds]. *)
Definition bbox : Type := Q * Q * Q * Q.

Definition raster_window (raster_file : DatasetReader) (bounds : bbox)
  : outcome window :=
  let '(lon_min, lat_min, lon_max, lat_max) := bounds in
  '(bottom, left_) ← index raster_file lon_min lat_min;
  '(top, right_) ← index raster_file lon_max lat_max;
  mret ((top, bottom + 1), (left_, right_ + 1))%Z.

(** ** The affine mapping of the window (cell 22) *)

Definition ny_affine (rfa : Affine.t) (lon_min lat_max : Q) : Affine.t :=
  Affine.Affine
    (Affine.a rfa) (Affine.b rfa) lon_min
    (Affine.d rfa) (Affine.e rfa) lat_max.

(** The shape the windowed pixel array has for a window lying inside the
    raster: one row per index of [row_start, row_stop), one column per
    index of [col_start, col_stop). *)
Definition window_shape (w : window) : Z * Z :=
  (row_stop w - row_start w, col_stop w - col_start w)%Z.

(** [raster_file.bounds]: the geographic extent of the pixel grid,
    [(left, bottom, right, top)]. *)
Definition raster_bounds (raster_file : DatasetReader) : bbox :=
  let t := affine raster_file in
  (Affine.c t,
   Affine.f t + Affine.e t * inject_Z (height raster_file),
   Affine.c t + Affine.a t * inject_Z (width raster_file),
   Affine.f t)%Q.

(** Two boxes that share no point. *)
Definition disjoint (p q : bbox) : Prop :=
  let '(pxmin, pymin, pxmax, pymax) := p in
  let '(qxmin, qymin, qxmax, qymax) := q in
  (pxmax < qxmin ∨ qxmax < pxmin ∨ pymax < qymin ∨ qymax < pymin)%Q.

(** A window that shares no pixel with the grid of the raster. *)
Definition off_grid (raster_file : DatasetReader) (w : window) : Prop :=
  (row_stop w <= 0 ∨ height raster_file <= row_start w ∨
   col_stop w <= 0 ∨ width raster_file <= col_start w)%Z.

(** The point [(x, y)] falls on a pixel of the window. *)
Definition window_covers (raster_file : DatasetReader) (w : window) (x y : Q) : Prop :=
  ∃ col row, pixel_coords raster_file x y = Returned (col, row) ∧
    (inject_Z (col_start w) <= col ∧ col < inject_Z (col_stop w) ∧
     inject_Z (row_start w) <= row ∧ row < inject_Z (row_stop w))%Q.

(** Every point of the box falls on a pixel of the window. *)
Definition window_contains (raster_file : DatasetReader) (w : window) (bounds : bbox)
  : Prop :=
  let '(lon_min, lat_min, lon_max, lat_max) := bounds in
  ∀ x y, (lon_min <= x ∧ x <= lon_max)%Q → (lat_min <= y ∧ y <= lat_max)%Q →
    window_covers raster_file w x y.

(** The indices [(col, row)] of the first and of the last pixel of an array
    of the window's shape. *)
Definition first_pixel : Q * Q := (0, 0)%Q.
Definition last_pixel (w : window) : Q * Q :=
  (inject_Z (snd (window_shape w) - 1), inject_Z (fst (window_shape w) - 1)).

(** [g], applied to the corner pixels of the window's array, gives back
    the corners of the box to within one pixel of the raster [rfa]. *)
Definition reproduces (rfa g : Affine.t) (w : window) (bounds : bbox) : Prop :=
  let '(lon_min, lat_min, lon_max, lat_max) := bounds in
  let '(x0, y0) := Affine.mul g first_pixel in
  let '(x1, y1) := Affine.mul g (last_pixel w) in
  (Qabs (x0 - lon_min) < Qabs (Affine.a rfa) ∧
   Qabs (y0 - lat_max) < Qabs (Affine.e rfa) ∧
   Qabs (x1 - lon_max) < Qabs (Affine.a rfa) ∧
   Qabs (y1 - lat_min) < Qabs (Affine.e rfa))%Q.

(** *** Sample grids

    A north-up grid of 15 arc-second pixels with its corner at 180W 75N,
    a north-up grid of unit pixels, the same grid with rows growing
    northwards, and a grid whose rows and columns run along the
    diagonals. *)

Definition arcsec15_grid : DatasetReader :=
  {| affine := Affine.Affine (1 # 240) 0 (-180) 0 (- (1 # 240)) 75;
     height := 18000; width := 28800 |}.

Definition unit_grid : DatasetReader :=
  {| affine := Affine.Affine 1 0 0 0 (-1) 0; height := 100; width := 100 |}.

Definition south_up_grid : DatasetReader :=
  {| affine := Affine.Affine 1 0 0 0 1 0; height := 100; width := 100 |}.

Definition rotated_grid : DatasetReader :=
  {| affine := Affine.Affine 1 1 0 1 (-1) 0; height := 100; width := 100 |}.

(** ** [shapely] geometries and their bounds (cells 10 and 12)

    A multipolygon is a list of polygons; a polygon is a list of rings,
    the first its shell and the others its holes; a ring is a list of
    [(lon, lat)] pairs. *)

Definition geometry : Type := list (list (list (Q * Q))).

(** The coordinates of the shells.  The bounds of a polygon are those of
    its shell: the holes are not looked at. *)
Definition shell_coords (g : geometry) : list (Q * Q) :=
  polygon ← g; default [] (head polygon).

(** [lon_min, lat_min, lon_max, lat_max = ny_shape.bounds].  For an empty
    geometry the [shapely] of the notebook's time gives the empty tuple
    and the unpacking fails; later versions give four NaNs, which have no
    counterpart in [Q] and on which [index] fails in cell 14.  Either
    way the notebook stops with [ValueError] before there is a window. *)
Definition bounds (ny_shape : geometry) : outcome bbox :=
  match shell_coords ny_shape with
  | [] => Raised ValueError
  | (x, y) :: ps =>
      mret (foldr Qmin x ps.*1, foldr Qmin y ps.*2,
            foldr Qmax x ps.*1, foldr Qmax y ps.*2)
  end.

(** ** [numpy] arrays

    A two-dimensional array is its shape and its elements in row-major
    order; [well_formed] says the two agree. *)

Record ndarray (A : Type) : Type := Ndarray { shape : nat * nat; flat : list A }.
Arguments Ndarray {A} shape flat.
Arguments shape {A} _.
Arguments flat {A} _.

Definition size {A} (arr : ndarray A) : nat := fst (shape arr) * snd (shape arr).

Definition well_formed {A} (arr : ndarray A) : Prop := length (flat arr) = size arr.

(** [arr.astype(bool)]: every non-zero element is [True]. *)
Definition astype_bool (arr : ndarray Z) : ndarray bool :=
  Ndarray (shape arr) ((λ v, negb (v =? 0)%Z) <$> flat arr).

(** [np.reshape(arr, new_shape)]: the same elements, read in the same order. *)
Definition np_reshape {A} (arr : ndarray A) (new_shape : nat * nat) : ndarray A :=
  Ndarray new_shape (flat arr).

(** [np.resize(arr, new_shape)]: the elements repeated as often as needed. *)
Definition np_resize {A} (arr : ndarray A) (new_shape : nat * nat) : ndarray A :=
  let n := fst new_shape * snd new_shape in
  Ndarray new_shape (take n (mjoin (replicate n (flat arr)))).

(** ** Masked arrays (cell 28)

    [mask] is [True] where the element is left out. *)

Record MaskedArray : Type := { data : ndarray Q; mask : ndarray bool }.

(** [np.ma.array(data=..., mask=...)].  When the shapes differ the mask is
    stretched if it has one element, reshaped if it has as many elements
    as the data, and refused otherwise. *)
Definition ma_array (data : ndarray Q) (mask : ndarray bool) : outcome MaskedArray :=
  if decide (shape mask = shape data) then
    mret {| data := data; mask := mask |}
  else
    let nd := size data in
    let nm := size mask in
    if nm =? 1 then mret {| data := data; mask := np_resize mask (shape data) |}
    else if nm =? nd then mret {| data := data; mask := np_reshape mask (shape data) |}
    else Raised MaskError.

(** The result of a reduction: a number, or the constant [numpy.ma.masked]. *)
Inductive scalar (A : Type) : Type :=
  | Value (x : A)
  | masked.
Arguments Value {A} x.
Arguments masked {A}.

(** The elements that are not masked, in order. *)
Definition compressed (m : MaskedArray) : list Q :=
  (filter (λ p, snd p = false) (zip (flat (data m)) (flat (mask m)))).*1.

Definition count (m : MaskedArray) : nat := length (compressed m).

(** [m.filled(fill_value)]: the masked elements replaced. *)
Definition filled (m : MaskedArray) (fill_value : Q) : list Q :=
  zip_with (λ x (hidden : bool), if hidden then fill_value else x)
    (flat (data m)) (flat (mask m)).

Definition np_sum (xs : list Q) : Q := foldr Qplus 0%Q xs.

(** [m.min()] and [m.max()]: reducing an array without elements is an
    error; an array whose elements are all masked gives [masked];
    otherwise the result is the least (greatest) of the elements left in.
    [numpy] gets there by filling the masked elements with the largest
    (smallest) value of the type, which has no counterpart in [Q]. *)
Definition ma_min (m : MaskedArray) : outcome (scalar Q) :=
  match flat (data m) with
  | [] => Raised ValueError
  | _ :: _ =>
      match compressed m with
      | [] => mret masked
      | x :: xs => mret (Value (foldr Qmin x xs))
      end
  end.

Definition ma_max (m : MaskedArray) : outcome (scalar Q) :=
  match flat (data m) with
  | [] => Raised ValueError
  | _ :: _ =>
      match compressed m with
      | [] => mret masked
      | x :: xs => mret (Value (foldr Qmax x xs))
      end
  end.

(** [m.mean()]: the sum of the array filled with zeros over the count. *)
Definition ma_mean (m : MaskedArray) : scalar Q :=
  let dsum := np_sum (filled m 0%Q) in
  let cnt := count m in
  if cnt =? 0 then masked
  else Value (dsum * 1 / inject_Z (Z.of_nat cnt))%Q.

(** [m.var()]: the mean of the squared deviations from the mean. *)
Definition ma_var (m : MaskedArray) : scalar Q :=
  match ma_mean m with
  | masked => masked
  | Value mu =>
      let danom := {| data := Ndarray (shape (data m))
                                ((λ x, (x - mu) * (x - mu))%Q <$> flat (data m));
                      mask := mask m |} in
      Value (np_sum (filled danom 0%Q) / inject_Z (Z.of_nat (count m)))%Q
  end.

(** [m.std()] *)
Definition ma_std (m : MaskedArray) : scalar R :=
  match ma_var m with
  | masked => masked
  | Value dvar => Value (sqrt (Q2R dvar))
  end.

Record statistics : Type :=
  { stat_min : scalar Q; stat_max : scalar Q;
    stat_mean : scalar Q; stat_std : scalar R }.

(** Cell 28 as a whole. *)
Definition masked_statistics (ny_raster_array : ndarray Q) (ny_mask : ndarray Z)
  : outcome statistics :=
  ny_masked ← ma_array ny_raster_array (astype_bool ny_mask);
  lo ← ma_min ny_masked;
  hi ← ma_max ny_masked;
  mret {| stat_min := lo; stat_max := hi;
          stat_mean := ma_mean ny_masked; stat_std := ma_std ny_masked |}.

(** ** From the polygon to the mask (cells 10 to 24) *)

Section Pipeline.
(** [raster_file.read(indexes=1, window=raster_window)] is [rasterio]'s:
    whatever array it gives for a window, or a failure. *)
Variable read : DatasetReader → window → option (ndarray Q).

(** The rule by which [rasterio.features.rasterize] decides that a
    geometry covers the pixel at [(row, col)] under a transform. *)
Variable covers : Affine.t → geometry → nat → nat → bool.

(** The value burnt into one pixel: [fill] unless a shape covers it,
    later shapes over earlier ones. *)
Definition burn (transform : Affine.t) (fill : Z)
    (shapes : list (geometry * Z)) (row col : nat) : Z :=
  foldl (λ v gv, if covers transform gv.1 row col then gv.2 else v) fill shapes.

(** [rasterio.features.rasterize]: an array of [out_shape] with every
    pixel burnt; a shape without cells is refused. *)
Definition rasterize (shapes : list (geometry * Z)) (out_shape : nat * nat)
    (transform : Affine.t) (fill : Z) : outcome (ndarray Z) :=
  if (fst out_shape =? 0) || (snd out_shape =? 0) then Raised ValueError
  else
    mret (Ndarray out_shape
            (row ← seq 0 (fst out_shape);
             col ← seq 0 (snd out_shape);
             [burn transform fill shapes row col])).

(** Cell 16 *)
Definition ny_raster_array (raster_file : DatasetReader) (raster_window : window)
  : outcome (ndarray Q) :=
  match read raster_file raster_window with
  | Some arr => mret arr
  | None => Raised RasterioIOError
  end.

(** Cell 24: the county burnt as 0 into an array of ones that has the
    shape of the pixel array. *)
Definition ny_mask (ny_shape : geometry) (ny_raster_array : ndarray Q)
    (ny_affine : Affine.t) : outcome (ndarray Z) :=
  rasterize [(ny_shape, 0%Z)] (shape ny_raster_array) ny_affine 1%Z.


End Pipeline.

(** ** The county table (cells 6 and 8) *)

(** What the notebook reads of a county's GeoJSON object. *)
Record feature : Type :=
  { STATE : string; NAME : string; feature_geometry : geometry }.

(** [d[k]] *)
Definition getitem `{Countable K} {V} (d : gmap K V) (k : K) : outcome V :=
  match d !! k with
  | Some v => mret v
  | None => Raised KeyError
  end.

Section Counties.
(** Python's [int] on the [STATE] property. *)
Variable py_int : string → outcome Z.
(** The [STATE_NAME] column indexed by state code. *)
Variable states : gmap Z string.

Definition get_county_name_from_geo_obj (geo_obj : feature) : outcome string :=
  code ← py_int (STATE geo_obj);
  state ← getitem states code;
  mret (state +:+ ": " +:+ NAME geo_obj).

(** The dict comprehension: one assignment [d[key] = value] per feature,
    in the order of the collection. *)
Fixpoint dict_comprehension (d : gmap string feature) (features : list feature)
  : outcome (gmap string feature) :=
  match features with
  | [] => mret d
  | county_geojson :: rest =>
      key ← get_county_name_from_geo_obj county_geojson;
      dict_comprehension (<[key := county_geojson]> d) rest
  end.

Definition counties_geojson (features : list feature)
  : outcome (gmap string feature) :=
  dict_comprehension ∅ features.
End Counties.

(** ** Sample data *)

(** One row of two pixels, and masks for it: of another shape but as many
    elements, with every pixel outside, and with the second pixel inside. *)
Definition two_pixels : ndarray Q := Ndarray (1, 2) [3; 5]%Q.
Definition column_mask : ndarray Z := Ndarray (2, 1) [0; 1]%Z.
Definition all_outside : ndarray Z := Ndarray (1, 2) [1; 1]%Z.
Definition second_inside : ndarray Z := Ndarray (1, 2) [1; 0]%Z.

(** Two features with the same [STATE] and [NAME] but different outlines,
    and the tables that resolve their state. *)
Definition triangle : geometry := [[[(0, 0); (1, 0); (1, 1)]]]%Q.
Definition manhattan_1 : feature :=
  {| STATE := "36"; NAME := "New York"; feature_geometry := triangle |}.
Definition manhattan_2 : feature :=
  {| STATE := "36"; NAME := "New York";
     feature_geometry := [[[(5, 5); (6, 5); (6, 6)]]]%Q |}.
Definition only_36 (s : string) : outcome Z :=
  if String.eqb s "36" then Returned 36%Z else Raised ValueError.
Definition new_york_only : gmap Z string := {[36%Z := "New York"]}.

(** A square whose hole has a vertex outside of it, as GeoJSON allows. *)
Definition square_with_stray_hole : geometry :=
  [[[(0, 0); (4, 0); (4, 4); (0, 4); (0, 0)];
    [(1, 1); (9, 1); (1, 2); (1, 1)]]]%Q.


(** A second county of the same state. *)
Definition kings : feature :=
  {| STATE := "36"; NAME := "Kings";
     feature_geometry := [[[(2, 2); (3, 2); (3, 3)]]]%Q |}.

(** ** Arithmetic on arrays (cell 26) *)

(** The length two axes have together under broadcasting: equal lengths
    stay, an axis of length one is stretched to the other. *)
Definition broadcast_axis (n m : nat) : option nat :=
  if n =? m then Some n
  else if n =? 1 then Some m
  else if m =? 1 then Some n
  else None.

(** The element read at [(row, col)] of the broadcast array: along an axis
    of length one it is always the element at index 0. *)
Definition stretched {A} (d : A) (arr : ndarray A) (row col : nat) : A :=
  let r := if fst (shape arr) =? 1 then 0 else row in
  let c := if snd (shape arr) =? 1 then 0 else col in
  default d (flat arr !! (r * snd (shape arr) + c)).

(** [k - arr] on a [uint8] array: the result stays [uint8] and wraps. *)
Definition uint8_rsub (k : Z) (arr : ndarray Z) : ndarray Z :=
  Ndarray (shape arr) ((λ v, (k - v) `mod` 256)%Z <$> flat arr).

(** [x * y] for a float array and an integer array. *)
Definition np_multiply (x : ndarray Q) (y : ndarray Z) : outcome (ndarray Q) :=
  match broadcast_axis (fst (shape x)) (fst (shape y)),
        broadcast_axis (snd (shape x)) (snd (shape y)) with
  | Some rows, Some cols =>
      mret (Ndarray (rows, cols)
              (row ← seq 0 rows;
               col ← seq 0 cols;
               [(stretched 0%Q x row col * inject_Z (stretched 0%Z y row col))%Q]))
  | _, _ => Raised ValueError
  end.

(** [ny_raster_array * (1 - ny_mask)], the picture of cell 26. *)
Definition lights_inside (ny_raster_array : ndarray Q) (ny_mask : ndarray Z)
  : outcome (ndarray Q) :=
  np_multiply ny_raster_array (uint8_rsub 1 ny_mask).

(** The element at [(row, col)] of a two-dimensional array. *)
Definition at_cell {A} (arr : ndarray A) (row col : nat) : option A :=
  if (row <? fst (shape arr)) && (col <? snd (shape arr))
  then flat arr !! (row * snd (shape arr) + col)
  else None.

(** A rule under which a shape covers the pixels of the first column only. *)
Definition covers_first_column (t : Affine.t) (g : geometry) (row col : nat) : bool :=
  col =? 0.

(** A mask for [two_pixels] with both pixels inside. *)
Definition all_inside : ndarray Z := Ndarray (1, 2) [0; 0]%Z.

(** * Properties *)

Lemma bind_returned {A B} (k : A → outcome B) (x : A) : Returned x ≫= k = k x.
Proof. reflexivity. Qed.

Lemma bind_raised {A B} (k : A → outcome B) (err : exn) : Raised err ≫= k = Raised err.
Proof. reflexivity. Qed.

(** ** Arithmetic of floors and quotients *)

Section Arithmetic.
Local Open Scope Q_scope.

Lemma Qfloor_bounds (x : Q) :
  inject_Z (Qfloor x) <= x ∧ x < inject_Z (Qfloor x) + 1.
Proof.
  split; [apply Qfloor_le|].
  pose proof (Qlt_floor x) as H. rewrite inject_Z_plus in H. exact H.
Qed.

Lemma Qfloor_lower (z : Z) (x : Q) : inject_Z z <= x → (z <= Qfloor x)%Z.
Proof. intros H. rewrite <- (Qfloor_Z z). by apply Qfloor_resp_le. Qed.

Lemma Qfloor_upper (z : Z) (x : Q) : x < inject_Z z → (Qfloor x + 1 <= z)%Z.
Proof.
  intros H. pose proof (Qfloor_le x) as Hx.
  assert (Hlt : inject_Z (Qfloor x) < inject_Z z) by lra.
  rewrite <- Zlt_Qlt in Hlt. lia.
Qed.

Lemma Qdiv_pos_mono (s x y : Q) : 0 < s → x <= y → x / s <= y / s.
Proof.
  intros Hs Hxy. unfold Qdiv. apply Qmult_le_compat_r; [done|].
  apply Qlt_le_weak. by apply Qinv_lt_0_compat.
Qed.

Lemma Qdiv_neg_anti (s x y : Q) : s < 0 → x <= y → y / s <= x / s.
Proof.
  intros Hs Hxy.
  assert (E : ∀ z, z / s == (- z) / (- s)) by (intros z; field; lra).
  rewrite (E x), (E y). apply Qdiv_pos_mono; lra.
Qed.
End Arithmetic.

(** ** The index of a point under an axis-aligned transform *)

Section Index.
Local Open Scope Q_scope.

Lemma north_up_axis_aligned (t : Affine.t) : Affine.north_up t → Affine.axis_aligned t.
Proof. intros (Hb & Hd & Ha & He). repeat split; try done; lra. Qed.

Lemma invert_axis_aligned (t : Affine.t) :
  Affine.axis_aligned t →
  ∃ inv, Affine.invert t = Returned inv ∧
    ∀ x y, fst (Affine.mul inv (x, y)) == (x - Affine.c t) / Affine.a t ∧
           snd (Affine.mul inv (x, y)) == (y - Affine.f t) / Affine.e t.
Proof.
  intros (Hb & Hd & Ha & He).
  assert (Hdet : ¬ Affine.determinant t == 0).
  { unfold Affine.determinant. rewrite Hb. intros H.
    assert (Hae : Affine.a t * Affine.e t == 0) by lra.
    apply Qmult_integral in Hae. tauto. }
  unfold Affine.invert.
  destruct (Qeq_bool (Affine.determinant t) 0) eqn:E.
  { apply Qeq_bool_iff in E. contradiction. }
  eexists; split; [reflexivity|].
  intros x y. unfold Affine.mul, Affine.determinant in *; simpl.
  rewrite Hb, Hd. split; field; tauto.
Qed.

Lemma pixel_coords_axis_aligned (rf : DatasetReader) (x y : Q) :
  Affine.axis_aligned (affine rf) →
  ∃ col row, pixel_coords rf x y = Returned (col, row) ∧
    col == (x - Affine.c (affine rf)) / Affine.a (affine rf) ∧
    row == (y - Affine.f (affine rf)) / Affine.e (affine rf).
Proof.
  intros Ht. destruct (invert_axis_aligned _ Ht) as (inv & Hinv & Hmul).
  unfold pixel_coords. rewrite Hinv, bind_returned.
  specialize (Hmul x y).
  destruct (Affine.mul inv (x, y)) as [col row].
  by exists col, row.
Qed.

Lemma index_axis_aligned (rf : DatasetReader) (x y : Q) :
  Affine.axis_aligned (affine rf) →
  index rf x y =
    Returned (Qfloor ((y - Affine.f (affine rf)) / Affine.e (affine rf)),
              Qfloor ((x - Affine.c (affine rf)) / Affine.a (affine rf))).
Proof.
  intros Ht.
  destruct (pixel_coords_axis_aligned rf x y Ht) as (col & row & Hpc & Hcol & Hrow).
  unfold index. rewrite Hpc, bind_returned.
  by rewrite (Qfloor_comp _ _ Hcol), (Qfloor_comp _ _ Hrow).
Qed.

Lemma raster_window_axis_aligned (rf : DatasetReader) (lon_min lat_min lon_max lat_max : Q) :
  Affine.axis_aligned (affine rf) →
  let t := affine rf in
  raster_window rf (lon_min, lat_min, lon_max, lat_max) =
    Returned ((Qfloor ((lat_max - Affine.f t) / Affine.e t),
               Qfloor ((lat_min - Affine.f t) / Affine.e t) + 1),
              (Qfloor ((lon_min - Affine.c t) / Affine.a t),
               Qfloor ((lon_max - Affine.c t) / Affine.a t) + 1))%Z.
Proof.
  intros Ht t. unfold raster_window.
  by rewrite !index_axis_aligned, !bind_returned.
Qed.
End Index.

(** ** The window of a bounding box *)

Section Window.
Local Open Scope Q_scope.

Lemma north_up_indices_ordered
    (rf : DatasetReader) (lon_min lat_min lon_max lat_max : Q) :
  Affine.north_up (affine rf) →
  lon_min <= lon_max →
  lat_min <= lat_max →
  let t := affine rf in
  (Qfloor ((lat_max - Affine.f t) / Affine.e t)
     <= Qfloor ((lat_min - Affine.f t) / Affine.e t))%Z ∧
  (Qfloor ((lon_min - Affine.c t) / Affine.a t)
     <= Qfloor ((lon_max - Affine.c t) / Affine.a t))%Z.
Proof.
  intros (_ & _ & Ha & He) Hlon Hlat t. subst t. split.
  - apply Qfloor_resp_le, Qdiv_neg_anti; lra.
  - apply Qfloor_resp_le, Qdiv_pos_mono; lra.
Qed.

(** C1 (as amended).  The window takes its first row from [lat_max] and
    its last row from [lat_min] without comparing them; on a north-up
    grid that order is the right one, and the window of every box with
    [lon_min <= lon_max] and [lat_min <= lat_max] has at least one row
    and one column: [row_start < row_stop] and [col_start < col_stop]. *)
Theorem raster_window_north_up_nonempty
    (rf : DatasetReader) (lon_min lat_min lon_max lat_max : Q) :
  Affine.north_up (affine rf) →
  lon_min <= lon_max →
  lat_min <= lat_max →
  ∃ top bottom left_ right_ w,
    index rf lon_min lat_min = Returned (bottom, left_) ∧
    index rf lon_max lat_max = Returned (top, right_) ∧
    (top <= bottom)%Z ∧ (left_ <= right_)%Z ∧
    raster_window rf (lon_min, lat_min, lon_max, lat_max) = Returned w ∧
    w = ((top, bottom + 1), (left_, right_ + 1))%Z ∧
    (row_start w < row_stop w)%Z ∧ (col_start w < col_stop w)%Z.
Proof.
  intros Hn Hlon Hlat.
  destruct (north_up_indices_ordered rf _ _ _ _ Hn Hlon Hlat)
    as [Hrows Hcols].
  pose proof (north_up_axis_aligned _ Hn) as Ht.
  do 5 eexists.
  rewrite (raster_window_axis_aligned _ _ _ _ _ Ht), !(index_axis_aligned _ _ _ Ht).
  do 2 (split; [reflexivity|]).
  do 2 (split; [eassumption|]).
  do 2 (split; [reflexivity|]).
  unfold row_start, row_stop, col_start, col_stop; cbn [fst snd]. lia.
Qed.

Lemma raster_window_north_up_nonempty_witness :
  ∃ top bottom left_ right_ w,
    index arcsec15_grid (-(7403 # 100)) (4068 # 100) = Returned (bottom, left_) ∧
    index arcsec15_grid (-(7390 # 100)) (4088 # 100) = Returned (top, right_) ∧
    (top <= bottom)%Z ∧ (left_ <= right_)%Z ∧
    raster_window arcsec15_grid (-(7403 # 100), 4068 # 100, -(7390 # 100), 4088 # 100)
      = Returned w ∧
    w = ((top, bottom + 1), (left_, right_ + 1))%Z ∧
    (row_start w < row_stop w)%Z ∧ (col_start w < col_stop w)%Z.
Proof.
  apply (raster_window_north_up_nonempty arcsec15_grid).
  - unfold Affine.north_up; simpl. repeat split; reflexivity.
  - vm_compute. discriminate.
  - vm_compute. discriminate.
Defined.

(** C1 fails as stated on a grid whose rows grow northwards: the box
    [0 <= lon <= 10], [0 <= lat <= 10] gets the rows [10, 1), which is
    no row at all; a resolver that compared the two rows would have
    started at the smaller.  And on a north-up grid a box inside one
    pixel has [top = bottom]: only the stop of the window, [bottom + 1],
    is strictly larger than [top]. *)
Lemma raster_window_south_up_empty :
  (0 < 10 ∧
   index south_up_grid 0 0 = Returned (0, 0)%Z ∧
   index south_up_grid 10 10 = Returned (10, 10)%Z ∧
   raster_window south_up_grid (0, 0, 10, 10) = Returned ((10, 1), (0, 11))%Z ∧
   ¬ (row_start ((10, 1), (0, 11)) < row_stop ((10, 1), (0, 11)))%Z) ∧
  (1 # 4 < 1 # 2 ∧ - (3 # 4) < - (1 # 4) ∧
   index unit_grid (1 # 4) (- (3 # 4)) = Returned (0, 0)%Z ∧
   index unit_grid (1 # 2) (- (1 # 4)) = Returned (0, 0)%Z ∧
   raster_window unit_grid (1 # 4, - (3 # 4), 1 # 2, - (1 # 4))
     = Returned ((0, 1), (0, 1))%Z).
Proof.
  split.
  - do 4 (split; [reflexivity|]).
    unfold row_start, row_stop; cbn [fst snd]. lia.
  - repeat split; reflexivity.
Qed.
End Window.

Section Outward.
Local Open Scope Q_scope.

(** C2 (as amended).  On a north-up grid, for a box with
    [lon_min <= lon_max] and [lat_min <= lat_max], the window starts at
    the floor of the smaller pixel coordinate and stops at the floor of
    the larger one plus one, for columns and for rows; every point of
    the box then falls on a pixel of the window. *)
Theorem raster_window_rounds_outward
    (rf : DatasetReader) (lon_min lat_min lon_max lat_max : Q) :
  Affine.north_up (affine rf) →
  lon_min <= lon_max →
  lat_min <= lat_max →
  ∃ w col_sw row_sw col_ne row_ne,
    raster_window rf (lon_min, lat_min, lon_max, lat_max) = Returned w ∧
    pixel_coords rf lon_min lat_min = Returned (col_sw, row_sw) ∧
    pixel_coords rf lon_max lat_max = Returned (col_ne, row_ne) ∧
    col_sw <= col_ne ∧ row_ne <= row_sw ∧
    col_start w = Qfloor col_sw ∧ col_stop w = (Qfloor col_ne + 1)%Z ∧
    row_start w = Qfloor row_ne ∧ row_stop w = (Qfloor row_sw + 1)%Z ∧
    window_contains rf w (lon_min, lat_min, lon_max, lat_max).
Proof.
  intros Hn Hlon Hlat.
  pose proof (north_up_axis_aligned _ Hn) as Ht.
  destruct Hn as (_ & _ & Ha & He).
  destruct (pixel_coords_axis_aligned rf lon_min lat_min Ht)
    as (col_sw & row_sw & Hsw & Hcsw & Hrsw).
  destruct (pixel_coords_axis_aligned rf lon_max lat_max Ht)
    as (col_ne & row_ne & Hne & Hcne & Hrne).
  eexists; exists col_sw, row_sw, col_ne, row_ne.
  rewrite (raster_window_axis_aligned _ _ _ _ _ Ht).
  unfold col_start, col_stop, row_start, row_stop; cbn [fst snd].
  rewrite <- (Qfloor_comp _ _ Hcsw), <- (Qfloor_comp _ _ Hrsw),
          <- (Qfloor_comp _ _ Hcne), <- (Qfloor_comp _ _ Hrne).
  assert (Hcols : col_sw <= col_ne).
  { rewrite Hcsw, Hcne. apply Qdiv_pos_mono; lra. }
  assert (Hrows : row_ne <= row_sw).
  { rewrite Hrsw, Hrne. apply Qdiv_neg_anti; lra. }
  do 9 (split; [done|]).
  intros x y [Hx1 Hx2] [Hy1 Hy2].
  destruct (pixel_coords_axis_aligned rf x y Ht) as (col & row & Hxy & Hc & Hr).
  exists col, row. split; [done|].
  unfold col_start, col_stop, row_start, row_stop; cbn [fst snd].
  assert (col_sw <= col) by (rewrite Hcsw, Hc; apply Qdiv_pos_mono; lra).
  assert (col <= col_ne) by (rewrite Hcne, Hc; apply Qdiv_pos_mono; lra).
  assert (row_ne <= row) by (rewrite Hrne, Hr; apply Qdiv_neg_anti; lra).
  assert (row <= row_sw) by (rewrite Hrsw, Hr; apply Qdiv_neg_anti; lra).
  pose proof (Qfloor_bounds col_sw). pose proof (Qfloor_bounds col_ne).
  pose proof (Qfloor_bounds row_sw). pose proof (Qfloor_bounds row_ne).
  rewrite !inject_Z_plus. change (inject_Z 1) with 1.
  repeat split; lra.
Qed.

Lemma raster_window_rounds_outward_witness :
  ∃ w col_sw row_sw col_ne row_ne,
    raster_window unit_grid (1 # 2, -(5 # 2), 5 # 2, -(1 # 2)) = Returned w ∧
    pixel_coords unit_grid (1 # 2) (-(5 # 2)) = Returned (col_sw, row_sw) ∧
    pixel_coords unit_grid (5 # 2) (-(1 # 2)) = Returned (col_ne, row_ne) ∧
    col_sw <= col_ne ∧ row_ne <= row_sw ∧
    col_start w = Qfloor col_sw ∧ col_stop w = (Qfloor col_ne + 1)%Z ∧
    row_start w = Qfloor row_ne ∧ row_stop w = (Qfloor row_sw + 1)%Z ∧
    window_contains unit_grid w (1 # 2, -(5 # 2), 5 # 2, -(1 # 2)).
Proof.
  apply (raster_window_rounds_outward unit_grid).
  - unfold Affine.north_up; simpl. repeat split; reflexivity.
  - vm_compute. discriminate.
  - vm_compute. discriminate.
Defined.

(** C2 fails as stated.  The stop of the window is the floor of the
    larger coordinate plus one, not its ceiling plus one: on the unit
    grid the box [1/2 <= lon <= 5/2] ends at pixel coordinate [5/2] and
    the window stops at column 3, not at 4.  And not every invertible
    transform gets a window that contains the box: on the grid whose
    rows grow northwards the corner [(0, 0)] of the box is on no pixel
    of the window. *)
Lemma raster_window_stop_not_ceiling :
  (raster_window unit_grid (1 # 2, -(5 # 2), 5 # 2, -(1 # 2))
     = Returned ((0, 3), (0, 3))%Z ∧
   pixel_coords unit_grid (5 # 2) (-(1 # 2)) = Returned (10 # 4, 2 # 4) ∧
   col_stop ((0, 3), (0, 3))%Z ≠ (Qceiling (10 # 4) + 1)%Z) ∧
  (Affine.invert (affine south_up_grid) = Returned (affine south_up_grid) ∧
   raster_window south_up_grid (0, 0, 10, 10) = Returned ((10, 1), (0, 11))%Z ∧
   ¬ window_contains south_up_grid ((10, 1), (0, 11))%Z (0, 0, 10, 10)).
Proof.
  split.
  - split; [reflexivity|]. split; [reflexivity|]. vm_compute. discriminate.
  - split; [reflexivity|]. split; [reflexivity|].
    intros H. destruct (H 0 0) as (col & row & Hpc & _ & _ & Hrow & _).
    + split; vm_compute; discriminate.
    + split; vm_compute; discriminate.
    + vm_compute in Hpc. injection Hpc as <- <-.
      vm_compute in Hrow. by apply Hrow.
Qed.
End Outward.

(** ** The affine mapping of the window *)

Section LocalAffine.
Local Open Scope Q_scope.

(** The corner [(lon_min, lat_max)] that the mapping of the window is
    anchored at lies on the first pixel of the window: on a north-up grid
    it is less than one pixel east and south of that pixel's own upper
    left corner. *)
Lemma window_corner_on_first_pixel
    (rf : DatasetReader) (lon_min lat_min lon_max lat_max : Q) :
  Affine.north_up (affine rf) →
  ∃ w x y,
    raster_window rf (lon_min, lat_min, lon_max, lat_max) = Returned w ∧
    Affine.mul (affine rf) (inject_Z (col_start w), inject_Z (row_start w)) = (x, y) ∧
    x <= lon_min ∧ lon_min < x + Affine.a (affine rf) ∧
    y + Affine.e (affine rf) < lat_max ∧ lat_max <= y.
Proof.
  intros Hn. pose proof (north_up_axis_aligned _ Hn) as Ht.
  destruct Hn as (Hb & Hd & Ha & He).
  do 3 eexists. split; [by apply raster_window_axis_aligned|].
  split; [reflexivity|].
  unfold col_start, row_start; cbn [fst snd].
  set (u := (lon_min - Affine.c (affine rf)) / Affine.a (affine rf)).
  set (v := (lat_max - Affine.f (affine rf)) / Affine.e (affine rf)).
  assert (Hu : Affine.a (affine rf) * u == lon_min - Affine.c (affine rf))
    by (unfold u; field; lra).
  assert (Hv : Affine.e (affine rf) * v == lat_max - Affine.f (affine rf))
    by (unfold v; field; lra).
  destruct (Qfloor_bounds u) as [Hu1 Hu2]. destruct (Qfloor_bounds v) as [Hv1 Hv2].
  rewrite Hb, Hd. repeat split; nra.
Qed.

(** C3 (as amended).  For every raster mapping and every box, the
    mapping of the window keeps [a], [b], [d] and [e] of the raster's
    mapping, and its [c] and [f] are [lon_min] and [lat_max]: the upper
    left corner of the bounding box, not that of the pixel window.  On a
    north-up grid that corner lies on the first pixel of the window, less
    than one pixel east and less than one pixel south of the window's own
    upper left corner. *)
Theorem ny_affine_anchored_at_box_corner
    (rf : DatasetReader) (lon_min lat_min lon_max lat_max : Q) :
  let rfa := affine rf in
  let t := ny_affine rfa lon_min lat_max in
  (Affine.a t = Affine.a rfa ∧ Affine.b t = Affine.b rfa ∧
   Affine.d t = Affine.d rfa ∧ Affine.e t = Affine.e rfa) ∧
  (Affine.c t = lon_min ∧ Affine.f t = lat_max) ∧
  (Affine.north_up rfa →
   ∃ w lon lat,
     raster_window rf (lon_min, lat_min, lon_max, lat_max) = Returned w ∧
     Affine.mul rfa (inject_Z (col_start w), inject_Z (row_start w)) = (lon, lat) ∧
     lon <= Affine.c t ∧ Affine.c t < lon + Affine.a rfa ∧
     lat + Affine.e rfa < Affine.f t ∧ Affine.f t <= lat).
Proof.
  intros rfa t. split; [by repeat split|]. split; [by split|].
  intros Hn.
  destruct (window_corner_on_first_pixel rf lon_min lat_min lon_max lat_max Hn)
    as (w & lon & lat & Hw & Hcorner & Hbounds).
  exists w, lon, lat. split; [exact Hw|]. split; [exact Hcorner|].
  subst t rfa. cbn [ny_affine Affine.c Affine.f]. exact Hbounds.
Qed.

Lemma ny_affine_anchored_at_box_corner_witness :
  let rfa := affine unit_grid in
  let t := ny_affine rfa (1 # 2) (-(1 # 2)) in
  ∃ w lon lat,
    raster_window unit_grid (1 # 2, -(5 # 2), 5 # 2, -(1 # 2)) = Returned w ∧
    Affine.mul rfa (inject_Z (col_start w), inject_Z (row_start w)) = (lon, lat) ∧
    lon <= Affine.c t ∧ Affine.c t < lon + Affine.a rfa ∧
    lat + Affine.e rfa < Affine.f t ∧ Affine.f t <= lat.
Proof.
  apply (ny_affine_anchored_at_box_corner unit_grid (1 # 2) (-(5 # 2)) (5 # 2) (-(1 # 2))).
  unfold Affine.north_up; simpl. repeat split; reflexivity.
Defined.

(** C3 fails as stated.  On the unit grid the box [1/2 <= lon <= 5/2],
    [-5/2 <= lat <= -1/2] gets the window of rows 0 to 3 and columns 0 to
    3, whose upper left corner is at longitude 0 and latitude 0; the
    mapping of the window has [c = 1/2] and [f = -1/2], the corner of the
    box. *)
Lemma ny_affine_not_at_window_corner :
  let t := ny_affine (affine unit_grid) (1 # 2) (-(1 # 2)) in
  raster_window unit_grid (1 # 2, -(5 # 2), 5 # 2, -(1 # 2))
    = Returned ((0, 3), (0, 3))%Z ∧
  Affine.mul (affine unit_grid)
    (inject_Z (col_start ((0, 3), (0, 3))%Z), inject_Z (row_start ((0, 3), (0, 3))%Z))
    = (0, 0) ∧
  Affine.c t = 1 # 2 ∧ Affine.f t = -(1 # 2) ∧
  ¬ Affine.c t == 0 ∧ ¬ Affine.f t == 0.
Proof.
  repeat split; try reflexivity; discriminate.
Qed.

Lemma Qabs_lt_eq (x y s : Q) : x == y → Qabs y < s → Qabs x < s.
Proof. intros E. by rewrite E. Qed.

Lemma snap_error (s p q : Q) :
  ¬ s == 0 →
  Qabs (s * inject_Z (Qfloor (q / s) - Qfloor (p / s)) + p - q) < Qabs s.
Proof.
  intros Hs.
  destruct (Qfloor_bounds (p / s)) as [Hp1 Hp2].
  destruct (Qfloor_bounds (q / s)) as [Hq1 Hq2].
  set (gap := inject_Z (Qfloor (q / s)) - inject_Z (Qfloor (p / s)) - (q / s - p / s)).
  assert (E : s * inject_Z (Qfloor (q / s) - Qfloor (p / s)) + p - q == s * gap).
  { unfold gap, Z.sub. rewrite inject_Z_plus, inject_Z_opp. field. exact Hs. }
  rewrite E, Qabs_Qmult.
  assert (Hgap : Qabs gap < 1) by (apply Qabs_Qlt_condition; unfold gap; split; lra).
  assert (Hpos : 0 < Qabs s).
  { destruct (Qlt_le_dec 0 (Qabs s)) as [|Hle]; [done|].
    exfalso; apply Hs. apply Qabs_Qle_condition in Hle. lra. }
  rewrite <- (Qmult_1_r (Qabs s)) at 2.
  by apply Qmult_lt_l.
Qed.
End LocalAffine.

Section RoundTrip.
Local Open Scope Q_scope.

(** C4 (as amended).  On an axis-aligned grid ([b = d = 0], [a] and [e]
    not zero) the mapping of the window itself, which takes pixel
    indices to longitude and latitude, applied to the first pixel
    [(0, 0)] and the last pixel [(ncols - 1, nrows - 1)] of the window's
    array, gives back [(lon_min, lat_max)] and [(lon_max, lat_min)] to
    within less than one pixel: [|a|] in longitude, [|e|] in latitude. *)
Theorem ny_affine_round_trip
    (rf : DatasetReader) (lon_min lat_min lon_max lat_max : Q) :
  Affine.axis_aligned (affine rf) →
  ∃ w,
    raster_window rf (lon_min, lat_min, lon_max, lat_max) = Returned w ∧
    reproduces (affine rf) (ny_affine (affine rf) lon_min lat_max) w
      (lon_min, lat_min, lon_max, lat_max).
Proof.
  intros Ht. eexists. split; [by apply raster_window_axis_aligned|].
  destruct Ht as (Hb & Hd & Ha & He).
  unfold reproduces, ny_affine, Affine.mul, first_pixel, last_pixel, window_shape,
    row_start, row_stop, col_start, col_stop.
  cbn [fst snd Affine.a Affine.b Affine.c Affine.d Affine.e Affine.f].
  rewrite Hb, Hd.
  pose proof (snap_error (Affine.a (affine rf))
                (lon_min - Affine.c (affine rf)) (lon_max - Affine.c (affine rf)) Ha) as Hx.
  pose proof (snap_error (Affine.e (affine rf))
                (lat_max - Affine.f (affine rf)) (lat_min - Affine.f (affine rf)) He) as Hy.
  pose proof (snap_error (Affine.a (affine rf)) 0 0 Ha) as Hx0.
  pose proof (snap_error (Affine.e (affine rf)) 0 0 He) as Hy0.
  repeat split.
  - eapply Qabs_lt_eq; [|exact Hx0]. rewrite Z.sub_diag. ring.
  - eapply Qabs_lt_eq; [|exact Hy0]. rewrite Z.sub_diag. ring.
  - eapply Qabs_lt_eq; [|exact Hx].
    replace (Qfloor ((lon_max - Affine.c (affine rf)) / Affine.a (affine rf)) + 1
             - Qfloor ((lon_min - Affine.c (affine rf)) / Affine.a (affine rf)) - 1)%Z
      with (Qfloor ((lon_max - Affine.c (affine rf)) / Affine.a (affine rf))
             - Qfloor ((lon_min - Affine.c (affine rf)) / Affine.a (affine rf)))%Z by lia.
    ring.
  - eapply Qabs_lt_eq; [|exact Hy].
    replace (Qfloor ((lat_min - Affine.f (affine rf)) / Affine.e (affine rf)) + 1
             - Qfloor ((lat_max - Affine.f (affine rf)) / Affine.e (affine rf)) - 1)%Z
      with (Qfloor ((lat_min - Affine.f (affine rf)) / Affine.e (affine rf))
             - Qfloor ((lat_max - Affine.f (affine rf)) / Affine.e (affine rf)))%Z by lia.
    ring.
Qed.

Lemma ny_affine_round_trip_witness :
  ∃ w,
    raster_window arcsec15_grid (-(7403 # 100), 4068 # 100, -(7390 # 100), 4088 # 100)
      = Returned w ∧
    reproduces (affine arcsec15_grid)
      (ny_affine (affine arcsec15_grid) (-(7403 # 100)) (4088 # 100)) w
      (-(7403 # 100), 4068 # 100, -(7390 # 100), 4088 # 100).
Proof.
  apply (ny_affine_round_trip arcsec15_grid).
  unfold Affine.axis_aligned; simpl. repeat split; try reflexivity; discriminate.
Defined.

(** C4 fails as stated.  The inverse of the window's mapping takes
    longitude and latitude to pixel indices, so applied to pixel indices
    it does not give the box back: on the unit grid, for the box
    [10 <= lon <= 12], [20 <= lat <= 23], it sends the first pixel to
    [(-10, 23)].  And on a grid that is not axis-aligned the mapping
    itself misses the box too: on the rotated grid, for the box
    [0 <= lon <= 4], [0 <= lat <= 10], it sends the last pixel to
    [(10, 14)] instead of [(4, 0)]. *)
Lemma round_trip_fails_by_inverse_or_rotation :
  (raster_window unit_grid (10, 20, 12, 23) = Returned ((-23, -19), (10, 13))%Z ∧
   Affine.invert (ny_affine (affine unit_grid) 10 23)
     = Returned (Affine.Affine 1 0 (-10) 0 (-1) 23) ∧
   ¬ reproduces (affine unit_grid) (Affine.Affine 1 0 (-10) 0 (-1) 23)
       ((-23, -19), (10, 13))%Z (10, 20, 12, 23)) ∧
  (raster_window rotated_grid (0, 0, 4, 10) = Returned ((-3, 1), (0, 8))%Z ∧
   ¬ reproduces (affine rotated_grid) (ny_affine (affine rotated_grid) 0 10)
       ((-3, 1), (0, 8))%Z (0, 0, 4, 10)).
Proof.
  split.
  - split; [reflexivity|]. split; [reflexivity|].
    intros (H & _). vm_compute in H. discriminate.
  - split; [reflexivity|].
    intros (_ & _ & H & _). vm_compute in H. discriminate.
Qed.
End RoundTrip.

Section Extent.
Local Open Scope Q_scope.

(** C8 (as amended).  On a north-up grid, for a box that shares no point
    with the extent of the raster, the window is computed as for any
    other box and no error is raised: it has at least one row and one
    column, and it shares no pixel with the grid of the raster. *)
Theorem raster_window_outside_extent
    (rf : DatasetReader) (lon_min lat_min lon_max lat_max : Q) :
  Affine.north_up (affine rf) →
  lon_min <= lon_max →
  lat_min <= lat_max →
  disjoint (lon_min, lat_min, lon_max, lat_max) (raster_bounds rf) →
  ∃ w,
    raster_window rf (lon_min, lat_min, lon_max, lat_max) = Returned w ∧
    (row_start w < row_stop w)%Z ∧ (col_start w < col_stop w)%Z ∧
    off_grid rf w.
Proof.
  intros Hn Hlon Hlat Hout.
  destruct (north_up_indices_ordered rf lon_min lat_min lon_max lat_max Hn Hlon Hlat)
    as (Hrows & Hcols).
  pose proof (north_up_axis_aligned _ Hn) as Ht.
  destruct Hn as (_ & _ & Ha & He).
  eexists. split; [by apply raster_window_axis_aligned|].
  unfold off_grid, row_start, row_stop, col_start, col_stop; cbn [fst snd].
  split; [lia|]. split; [lia|].
  unfold disjoint, raster_bounds in Hout.
  assert (Eneg : ∀ z, z / Affine.e (affine rf) == (- z) / (- Affine.e (affine rf)))
    by (intros z; field; lra).
  destruct Hout as [Hwest | [Heast | [Hsouth | Hnorth]]].
  - (* west of the raster *)
    right; right; left. apply Qfloor_upper.
    apply Qlt_shift_div_r; [done|]. change (inject_Z 0) with 0. lra.
  - (* east of the raster *)
    right; right; right. apply Qfloor_lower.
    apply Qle_shift_div_l; [done|]. lra.
  - (* south of the raster *)
    right; left. apply Qfloor_lower. rewrite Eneg.
    apply Qle_shift_div_l; [lra|]. lra.
  - (* north of the raster *)
    left. apply Qfloor_upper. rewrite Eneg.
    apply Qlt_shift_div_r; [lra|]. change (inject_Z 0) with 0. lra.
Qed.
End Extent.

Section ExtentExamples.
Local Open Scope Q_scope.

Lemma raster_window_outside_extent_witness :
  ∃ w,
    raster_window arcsec15_grid (151, -34, 152, -33) = Returned w ∧
    (row_start w < row_stop w)%Z ∧ (col_start w < col_stop w)%Z ∧
    off_grid arcsec15_grid w.
Proof.
  apply (raster_window_outside_extent arcsec15_grid).
  - unfold Affine.north_up; simpl. repeat split; reflexivity.
  - vm_compute. discriminate.
  - vm_compute. discriminate.
  - right; left. vm_compute. reflexivity.
Defined.

(** C8 fails as stated.  The grid of 15 arc-second pixels spans
    180W to 60W and the equator to 75N; the box [151 <= lon <= 152],
    [-34 <= lat <= -33] shares no point with it, and the window comes
    back as a value, rows 25920 to 26161 and columns 79440 to 79681,
    with no exception. *)
Lemma window_returned_outside_extent :
  raster_bounds arcsec15_grid = (-180, 0 # 240, -14400 # 240, 75) ∧
  disjoint (151, -34, 152, -33) (raster_bounds arcsec15_grid) ∧
  raster_window arcsec15_grid (151, -34, 152, -33)
    = Returned ((25920, 26161), (79440, 79681))%Z ∧
  ¬ raises (raster_window arcsec15_grid (151, -34, 152, -33)).
Proof.
  split; [reflexivity|]. split; [right; left; reflexivity|].
  split; [reflexivity|]. intros [err H]. discriminate H.
Qed.
End ExtentExamples.

(** ** Masked statistics *)

Section MaskedArrays.

Lemma ma_min_not_mask_error (m : MaskedArray) : ma_min m ≠ Raised MaskError.
Proof. unfold ma_min. by repeat case_match. Qed.

Lemma ma_max_not_mask_error (m : MaskedArray) : ma_max m ≠ Raised MaskError.
Proof. unfold ma_max. by repeat case_match. Qed.

Lemma reductions_not_mask_error (m : MaskedArray) :
  (lo ← ma_min m; hi ← ma_max m;
   mret {| stat_min := lo; stat_max := hi;
           stat_mean := ma_mean m; stat_std := ma_std m |})
  ≠ Raised MaskError.
Proof.
  pose proof (ma_min_not_mask_error m). pose proof (ma_max_not_mask_error m).
  destruct (ma_min m) as [lo|e1]; [|rewrite bind_raised; congruence].
  rewrite bind_returned.
  destruct (ma_max m) as [hi|e2]; [done|rewrite bind_raised; congruence].
Qed.

Lemma ma_array_same_shape (arr : ndarray Q) (msk : ndarray bool) :
  shape msk = shape arr → ma_array arr msk = Returned {| data := arr; mask := msk |}.
Proof. intros H. unfold ma_array. by rewrite decide_True. Qed.

Lemma ma_array_mask_error (arr : ndarray Q) (msk : ndarray bool) :
  ma_array arr msk = Raised MaskError ↔
  shape msk ≠ shape arr ∧ size msk ≠ 1 ∧ size msk ≠ size arr.
Proof.
  unfold ma_array. destruct (decide (shape msk = shape arr)) as [E|E].
  { split; [done|]. by intros [? _]. }
  destruct (Nat.eqb_spec (size msk) 1) as [E1|E1].
  { split; [done|]. by intros (_ & ? & _). }
  destruct (Nat.eqb_spec (size msk) (size arr)) as [E2|E2].
  { split; [done|]. by intros (_ & _ & ?). }
  done.
Qed.

Lemma mask_error_iff_sizes (arr : ndarray Q) (msk : ndarray Z) :
  masked_statistics arr msk = Raised MaskError ↔
  shape msk ≠ shape arr ∧ size msk ≠ 1 ∧ size msk ≠ size arr.
Proof.
  change (shape msk) with (shape (astype_bool msk)).
  change (size msk) with (size (astype_bool msk)).
  rewrite <- ma_array_mask_error. unfold masked_statistics.
  destruct (ma_array arr (astype_bool msk)) as [m|err].
  - rewrite bind_returned. split; [|done].
    intros H. by apply reductions_not_mask_error in H.
  - rewrite bind_raised. split; intros [= ->]; reflexivity.
Qed.

(** C5 (as amended).  The statistics stop with [MaskError] exactly when
    the mask differs in shape from the sample array and its number of
    elements is neither one nor that of the sample array.  With identical
    shapes the masked array is built from the sample array and the mask
    as they are; a mask of another shape is repeated if it has one
    element and reshaped if it has as many elements as the sample
    array. *)
Theorem masked_statistics_mask_error (arr : ndarray Q) (msk : ndarray Z) :
  (masked_statistics arr msk = Raised MaskError ↔
     shape msk ≠ shape arr ∧ size msk ≠ 1 ∧ size msk ≠ size arr) ∧
  (shape msk = shape arr →
     ma_array arr (astype_bool msk)
       = Returned {| data := arr; mask := astype_bool msk |} ∧
     masked_statistics arr msk ≠ Raised MaskError) ∧
  (shape msk ≠ shape arr → size msk = 1 →
     ma_array arr (astype_bool msk)
       = Returned {| data := arr; mask := np_resize (astype_bool msk) (shape arr) |}) ∧
  (shape msk ≠ shape arr → size msk ≠ 1 → size msk = size arr →
     ma_array arr (astype_bool msk)
       = Returned {| data := arr; mask := np_reshape (astype_bool msk) (shape arr) |}).
Proof.
  split; [apply mask_error_iff_sizes|]. split; [|split].
  - intros Hshape. split; [by apply ma_array_same_shape|].
    rewrite mask_error_iff_sizes. by intros [? _].
  - intros Hshape Hone. unfold ma_array.
    rewrite decide_False by done.
    change (size (astype_bool msk)) with (size msk). by rewrite Hone.
  - intros Hshape Hone Hsame. unfold ma_array.
    rewrite decide_False by done.
    change (size (astype_bool msk)) with (size msk).
    destruct (Nat.eqb_spec (size msk) 1) as [|_]; [done|].
    by rewrite Hsame, Nat.eqb_refl.
Qed.
End MaskedArrays.

Section Selections.
Local Open Scope Q_scope.

Lemma ma_array_data (arr : ndarray Q) (msk : ndarray bool) (m : MaskedArray) :
  ma_array arr msk = Returned m → data m = arr.
Proof.
  unfold ma_array. repeat case_match; intros [= <-]; reflexivity.
Qed.

(** C6 (as amended).  When the sample array has elements and the mask
    leaves none of them in, [min], [max], [mean] and [std] each give the
    constant [masked]; the statistics come back as a value and no
    exception is raised. *)
Theorem masked_statistics_nothing_selected
    (arr : ndarray Q) (msk : ndarray Z) (m : MaskedArray) :
  ma_array arr (astype_bool msk) = Returned m →
  flat arr ≠ [] →
  count m = 0%nat →
  masked_statistics arr msk
    = Returned {| stat_min := masked; stat_max := masked;
                  stat_mean := masked; stat_std := masked |}.
Proof.
  intros Hm Harr Hcount.
  unfold masked_statistics. rewrite Hm, bind_returned.
  apply ma_array_data in Hm.
  assert (Hnil : compressed m = []) by (by apply nil_length_inv).
  unfold ma_min, ma_max, ma_std, ma_var, ma_mean.
  rewrite Hm, Hnil, Hcount.
  destruct (flat arr); [done|]. reflexivity.
Qed.

Lemma all_hidden (g : Q → Q) (xs : list Q) (hs : list bool) :
  (∀ j h, hs !! j = Some h → h = true) →
  (filter (λ p, p.2 = false) (zip xs hs)).*1 = [] ∧
  np_sum (zip_with (λ x (hidden : bool), if hidden then 0 else g x) xs hs) == 0.
Proof.
  revert hs. induction xs as [|x xs IH]; intros [|h hs] Hall; try (by split).
  assert (h = true) as -> by (by apply (Hall 0%nat)).
  destruct (IH hs) as [IH1 IH2]; [intros j; apply (Hall (S j))|].
  split.
  - cbn [zip zip_with]. by rewrite filter_cons_False.
  - cbn. rewrite IH2. ring.
Qed.

Lemma one_shown (g : Q → Q) (xs : list Q) (hs : list bool) (i : nat) (v : Q) :
  xs !! i = Some v →
  hs !! i = Some false →
  (∀ j h, j ≠ i → hs !! j = Some h → h = true) →
  (filter (λ p, p.2 = false) (zip xs hs)).*1 = [v] ∧
  np_sum (zip_with (λ x (hidden : bool), if hidden then 0 else g x) xs hs) == g v.
Proof.
  revert hs i. induction xs as [|x xs IH]; intros [|h hs] [|i] Hx Hh Hrest; try done.
  - injection Hx as ->. injection Hh as ->.
    destruct (all_hidden g xs hs) as [H1 H2].
    { intros j h. apply (Hrest (S j)). lia. }
    split.
    + cbn [zip zip_with]. rewrite filter_cons_True by done.
      cbn. by rewrite H1.
    + cbn. rewrite H2. ring.
  - assert (h = true) as -> by (by apply (Hrest 0%nat)).
    destruct (IH hs i) as [H1 H2]; [done|done| |].
    { intros j h Hj. apply (Hrest (S j)). lia. }
    split.
    + cbn [zip zip_with]. by rewrite filter_cons_False.
    + cbn. rewrite H2. ring.
Qed.

(** C7.  When the masked array built from a sample array and a mask
    leaves exactly one cell in, [min] and [max] are the sample at that
    cell, [mean] is equal to it, and [std] is 0. *)
Theorem masked_statistics_single_cell
    (arr : ndarray Q) (msk : ndarray Z) (m : MaskedArray) (i : nat) (v : Q) :
  ma_array arr (astype_bool msk) = Returned m →
  flat (data m) !! i = Some v →
  flat (mask m) !! i = Some false →
  (∀ j hidden, j ≠ i → flat (mask m) !! j = Some hidden → hidden = true) →
  ∃ mu,
    masked_statistics arr msk
      = Returned {| stat_min := Value v; stat_max := Value v;
                    stat_mean := Value mu; stat_std := Value 0%R |} ∧
    mu == v.
Proof.
  intros Hm Hv Hi Hrest.
  unfold masked_statistics. rewrite Hm, bind_returned.
  destruct (one_shown (λ x, x) _ _ i v Hv Hi Hrest) as [Hc Hsum].
  assert (Hcomp : compressed m = [v]) by exact Hc.
  assert (Hcount : count m = 1%nat) by (unfold count; by rewrite Hcomp).
  assert (Hmean : ma_mean m = Value (np_sum (filled m 0) * 1 / inject_Z 1)).
  { unfold ma_mean. by rewrite Hcount. }
  assert (Hmu : np_sum (filled m 0) * 1 / inject_Z 1 == v).
  { unfold filled. rewrite Hsum. field. }
  exists (np_sum (filled m 0) * 1 / inject_Z 1). split; [|exact Hmu].
  assert (Hmin : ma_min m = Returned (Value v)).
  { unfold ma_min. rewrite Hcomp. destruct (flat (data m)); [done|reflexivity]. }
  assert (Hmax : ma_max m = Returned (Value v)).
  { unfold ma_max. rewrite Hcomp. destruct (flat (data m)); [done|reflexivity]. }
  assert (Hstd : ma_std m = Value 0%R).
  { unfold ma_std, ma_var. rewrite Hmean, Hcount. f_equal.
    set (mu := np_sum (filled m 0) * 1 / inject_Z 1) in *.
    destruct (one_shown (λ x, (x - mu) * (x - mu)) _ _ i v Hv Hi Hrest) as [_ Hsq].
    assert (E : np_sum (filled
                  {| data := Ndarray (shape (data m))
                               ((λ x, (x - mu) * (x - mu)) <$> flat (data m));
                     mask := mask m |} 0) / inject_Z (Z.of_nat 1) == 0).
    { unfold filled; cbn [data mask flat shape].
      rewrite zip_with_fmap_l, Hsq, Hmu. field. }
    rewrite (Qeq_eqR _ _ E).
    replace (Q2R 0) with 0%R by (unfold Q2R; cbn; Lra.lra).
    apply sqrt_0. }
  rewrite Hmin, Hmax, Hmean, Hstd. reflexivity.
Qed.
End Selections.

Section SelectionExamples.
Local Open Scope Q_scope.

Lemma masked_statistics_mask_error_witness :
  ma_array two_pixels (astype_bool second_inside)
    = Returned {| data := two_pixels; mask := astype_bool second_inside |} ∧
  masked_statistics two_pixels second_inside ≠ Raised MaskError.
Proof.
  apply (proj1 (proj2 (masked_statistics_mask_error two_pixels second_inside))).
  reflexivity.
Defined.

(** C5 fails as stated.  A mask of two rows and one column differs in
    shape from a sample array of one row and two columns; it has as
    many elements, so it is reshaped without a word and the statistics
    are computed over the one pixel it leaves in. *)
Lemma masked_statistics_reshapes_mask :
  shape column_mask ≠ shape two_pixels ∧
  ma_array two_pixels (astype_bool column_mask)
    = Returned {| data := two_pixels; mask := Ndarray (1, 2)%nat [false; true] |} ∧
  (∃ s, masked_statistics two_pixels column_mask = Returned s ∧
        stat_min s = Value 3 ∧ stat_max s = Value 3) ∧
  ¬ raises (masked_statistics two_pixels column_mask).
Proof.
  split; [discriminate|]. split; [reflexivity|].
  split; [eexists; split; [reflexivity|]; split; reflexivity|].
  intros [err H]. discriminate H.
Qed.

Lemma masked_statistics_nothing_selected_witness :
  masked_statistics two_pixels all_outside
    = Returned {| stat_min := masked; stat_max := masked;
                  stat_mean := masked; stat_std := masked |}.
Proof.
  apply (masked_statistics_nothing_selected two_pixels all_outside
           {| data := two_pixels; mask := astype_bool all_outside |}).
  - reflexivity.
  - discriminate.
  - reflexivity.
Defined.

(** C6 fails as stated.  With both pixels outside, the four statistics
    are the constant [masked] and the cell ends without an exception. *)
Lemma masked_statistics_all_outside_returns :
  count {| data := two_pixels; mask := astype_bool all_outside |} = 0%nat ∧
  (∃ s, masked_statistics two_pixels all_outside = Returned s ∧
        stat_min s = masked ∧ stat_max s = masked ∧
        stat_mean s = masked ∧ stat_std s = masked) ∧
  ¬ raises (masked_statistics two_pixels all_outside).
Proof.
  split; [reflexivity|].
  split; [eexists; split; [reflexivity|]; repeat split|].
  intros [err H]. discriminate H.
Qed.

Lemma masked_statistics_single_cell_witness :
  ∃ mu,
    masked_statistics two_pixels second_inside
      = Returned {| stat_min := Value 5; stat_max := Value 5;
                    stat_mean := Value mu; stat_std := Value 0%R |} ∧
    mu == 5.
Proof.
  apply (masked_statistics_single_cell two_pixels second_inside
           {| data := two_pixels; mask := astype_bool second_inside |} 1%nat 5).
  - reflexivity.
  - reflexivity.
  - reflexivity.
  - intros [|[|j]] hidden Hj Hh; vm_compute in Hh; congruence.
Defined.
End SelectionExamples.

(** ** The mask and the pixel array *)

Section MaskShape.
Variable read : DatasetReader → window → option (ndarray Q).
Variable covers : Affine.t → geometry → nat → nat → bool.

Lemma length_bind_singleton {A B} (g : A → B) (l : list A) :
  length (l ≫= λ x, [g x]) = length l.
Proof. induction l as [|x l IH]; [done|]. cbn. by rewrite IH. Qed.







End MaskShape.

Section MaskShapeExamples.
End MaskShapeExamples.

(** ** The county table *)

Section CountyTable.
Variable py_int : string → outcome Z.
Variable states : gmap Z string.

Abbreviation name_of := (get_county_name_from_geo_obj py_int states).
Abbreviation build := (dict_comprehension py_int states).

Lemma name_of_same_properties (g1 g2 : feature) :
  STATE g1 = STATE g2 → NAME g1 = NAME g2 → name_of g1 = name_of g2.
Proof.
  intros Hs Hn. unfold get_county_name_from_geo_obj. by rewrite Hs, Hn.
Qed.

Lemma dict_comprehension_returns (features : list feature) (d0 : gmap string feature) :
  (∀ g, g ∈ features → ∃ k, name_of g = Returned k) →
  ∃ d, build d0 features = Returned d.
Proof.
  revert d0. induction features as [|g rest IH]; intros d0 Hall; [by eexists|].
  destruct (Hall g) as [k Hk]; [left|].
  cbn [dict_comprehension]. rewrite Hk, bind_returned.
  apply IH. intros g' Hg'. apply Hall. by right.
Qed.

Lemma dict_comprehension_lookup (features : list feature) (d0 d : gmap string feature) (k : string) :
  build d0 features = Returned d →
  d !! k = match last (filter (λ g, name_of g = Returned k) features) with
           | Some g => Some g
           | None => d0 !! k
           end.
Proof.
  revert d0. induction features as [|g rest IH]; intros d0 Hd.
  { by injection Hd as ->. }
  cbn [dict_comprehension] in Hd.
  destruct (name_of g) as [kg|] eqn:Hg; [|done].
  rewrite bind_returned in Hd. rewrite (IH _ Hd).
  destruct (decide (kg = k)) as [->|Hne].
  - rewrite filter_cons_True by done. rewrite last_cons.
    destruct (last _); [done|]. by rewrite lookup_insert_eq.
  - rewrite filter_cons_False by congruence.
    destruct (last _); [done|]. by rewrite lookup_insert_ne.
Qed.

Lemma filter_none {A} (P : A → Prop) `{∀ x, Decision (P x)} (l : list A) :
  (∀ x, x ∈ l → ¬ P x) → filter P l = [].
Proof.
  induction l as [|x l IH]; intros Hl; [done|].
  rewrite filter_cons_False by (apply Hl; left).
  apply IH. intros y Hy. apply Hl. by right.
Qed.

(** C10.  When two features of the collection have the same [STATE] and
    the same [NAME], they get the same key; if every feature gets a key,
    the table is built without an error, and looking the key up gives
    the last feature of the collection that has it: the later of the
    two when none after it has the key. *)
Theorem counties_geojson_last_wins
    (features before between after : list feature)
    (earlier later : feature) (key : string) :
  features = before ++ earlier :: between ++ later :: after →
  STATE earlier = STATE later →
  NAME earlier = NAME later →
  (∀ g, g ∈ features → ∃ k, name_of g = Returned k) →
  name_of later = Returned key →
  (∀ g, g ∈ after → name_of g ≠ Returned key) →
  name_of earlier = Returned key ∧
  ∃ d, counties_geojson py_int states features = Returned d ∧
       getitem d key = Returned later.
Proof.
  intros -> Hstate Hname Hall Hkey Hafter.
  split; [by rewrite (name_of_same_properties earlier later)|].
  destruct (dict_comprehension_returns _ ∅ Hall) as [d Hd].
  exists d. split; [exact Hd|].
  unfold getitem. rewrite (dict_comprehension_lookup _ _ _ key Hd).
  replace (before ++ earlier :: between ++ later :: after)
    with ((before ++ earlier :: between) ++ later :: after)
    by (by rewrite <- app_assoc).
  rewrite filter_app, filter_cons_True by done.
  rewrite (filter_none _ after) by done.
  by rewrite last_snoc.
Qed.
End CountyTable.

Section CountyTableExamples.
Lemma counties_geojson_last_wins_witness :
  get_county_name_from_geo_obj only_36 new_york_only manhattan_1
    = Returned "New York: New York" ∧
  ∃ d, counties_geojson only_36 new_york_only [manhattan_1; manhattan_2]
         = Returned d ∧
       getitem d "New York: New York" = Returned manhattan_2.
Proof.
  apply (counties_geojson_last_wins only_36 new_york_only
           [manhattan_1; manhattan_2] [] [] [] manhattan_1 manhattan_2).
  - reflexivity.
  - reflexivity.
  - reflexivity.
  - intros g Hg. exists "New York: New York".
    apply elem_of_cons in Hg as [->|Hg]; [reflexivity|].
    apply elem_of_cons in Hg as [->|Hg]; [reflexivity|].
    by apply elem_of_nil in Hg.
  - reflexivity.
  - intros g Hg. by apply elem_of_nil in Hg.
Defined.
End CountyTableExamples.

(** * Further properties *)

(** ** The county table: failures and lookups *)

Section CountyTableMore.
Variable py_int : string → outcome Z.
Variable states : gmap Z string.

Abbreviation key_of := (get_county_name_from_geo_obj py_int states).

Lemma dict_comprehension_raised (features : list feature) (d0 : gmap string feature) (err : exn) :
  dict_comprehension py_int states d0 features = Raised err ↔
  ∃ good bad rest,
    features = good ++ bad :: rest ∧
    Forall (λ g, ∃ k, key_of g = Returned k) good ∧
    key_of bad = Raised err.
Proof.
  revert d0. induction features as [|g features IH]; intros d0.
  { split; [done|]. intros (good & bad & rest & H & _). by destruct good. }
  cbn [dict_comprehension]. destruct (key_of g) as [k|e] eqn:Hg.
  - rewrite bind_returned, IH. split.
    + intros (good & bad & rest & -> & Hgood & Hbad).
      exists (g :: good), bad, rest. split; [done|]. split; [|done].
      constructor; [by exists k|done].
    + intros (good & bad & rest & Heq & Hgood & Hbad).
      destruct good as [|g' good].
      { injection Heq as <- _. congruence. }
      injection Heq as <- ->.
      exists good, bad, rest. split; [done|]. split; [|done].
      by inversion Hgood.
  - rewrite bind_raised. split.
    + intros [= ->]. exists [], g, features. by repeat split.
    + intros (good & bad & rest & Heq & Hgood & Hbad).
      destruct good as [|g' good].
      { injection Heq as <- _. congruence. }
      injection Heq as <- _.
      inversion Hgood as [|? ? [k Hk] ?]. congruence.
Qed.

(** X1.  The table is all or nothing: building it stops with an error
    exactly when some feature has no key, and the error is that of the
    first such feature of the collection, whatever comes after it. *)
Theorem counties_geojson_first_failure (features : list feature) (err : exn) :
  counties_geojson py_int states features = Raised err ↔
  ∃ good bad rest,
    features = good ++ bad :: rest ∧
    Forall (λ g, ∃ k, key_of g = Returned k) good ∧
    key_of bad = Raised err.
Proof. apply dict_comprehension_raised. Qed.

Lemma last_filter_elem {A} (P : A → Prop) `{∀ x, Decision (P x)} (l : list A) (x : A) :
  last (filter P l) = Some x → x ∈ l ∧ P x.
Proof.
  intros Hlast. apply last_Some_elem_of in Hlast.
  by apply list_elem_of_filter in Hlast as [? ?].
Qed.

Lemma filter_nil_none {A} (P : A → Prop) `{∀ x, Decision (P x)} (l : list A) :
  filter P l = [] ↔ ∀ x, x ∈ l → ¬ P x.
Proof.
  split; [|apply filter_none].
  intros Hnil x Hx HP.
  assert (x ∈ filter P l) as Hin by (by apply list_elem_of_filter).
  rewrite Hnil in Hin. by apply elem_of_nil in Hin.
Qed.

(** X2.  Once the table is built, looking a key up stops with [KeyError]
    exactly when no feature of the collection has that key; otherwise it
    gives a feature of the collection that has the key, never anything
    else. *)
Theorem counties_geojson_lookup_sound
    (features : list feature) (d : gmap string feature) (key : string) :
  counties_geojson py_int states features = Returned d →
  (getitem d key = Raised KeyError ↔
     ∀ g, g ∈ features → key_of g ≠ Returned key) ∧
  (∀ g, getitem d key = Returned g → g ∈ features ∧ key_of g = Returned key) ∧
  (∀ err, getitem d key = Raised err → err = KeyError).
Proof.
  intros Hd. unfold getitem.
  rewrite (dict_comprehension_lookup _ _ _ _ _ key Hd), lookup_empty.
  destruct (last _) as [g|] eqn:Hlast.
  - apply last_filter_elem in Hlast as Hg. split; [|split].
    + split; [done|]. intros Hnone. destruct Hg as [Hin Hk]. by destruct (Hnone g Hin).
    + by intros g' [= <-].
    + done.
  - apply last_None in Hlast. split; [|split].
    + split; [|done]. intros _. by apply (proj1 (filter_nil_none _ _)).
    + done.
    + by intros err [= <-].
Qed.
End CountyTableMore.

Section CountyTableMoreExamples.
Lemma counties_geojson_lookup_sound_witness :
  ∃ d, counties_geojson only_36 new_york_only [manhattan_1; manhattan_2] = Returned d ∧
    (getitem d "Kings" = Raised KeyError ↔
       ∀ g, g ∈ [manhattan_1; manhattan_2] →
         get_county_name_from_geo_obj only_36 new_york_only g ≠ Returned "Kings") ∧
    (∀ g, getitem d "Kings" = Returned g →
       g ∈ [manhattan_1; manhattan_2] ∧
       get_county_name_from_geo_obj only_36 new_york_only g = Returned "Kings") ∧
    (∀ err, getitem d "Kings" = Raised err → err = KeyError).
Proof.
  eexists. split; [reflexivity|].
  apply (counties_geojson_lookup_sound only_36 new_york_only [manhattan_1; manhattan_2]).
  reflexivity.
Defined.
End CountyTableMoreExamples.

Section CountyTableDistinct.
Variable py_int : string → outcome Z.
Variable states : gmap Z string.

Abbreviation keyed := (Forall2 (λ g k, get_county_name_from_geo_obj py_int states g = Returned k)).

Lemma keyed_elem (features : list feature) (names : list string) (g : feature) :
  keyed features names → g ∈ features →
  ∃ k, k ∈ names ∧ get_county_name_from_geo_obj py_int states g = Returned k.
Proof.
  intros HF Hg. apply list_elem_of_lookup in Hg as [i Hi].
  destruct (Forall2_lookup_l _ _ _ _ _ HF Hi) as (k & Hk & Hgk).
  exists k. split; [|done]. apply list_elem_of_lookup. by exists i.
Qed.

Lemma dict_comprehension_dom (features : list feature) (names : list string)
    (d0 d : gmap string feature) :
  keyed features names →
  dict_comprehension py_int states d0 features = Returned d →
  dom d = dom d0 ∪ list_to_set names.
Proof.
  intros HF. revert d0. induction HF as [|g k features names Hgk HF IH]; intros d0 Hd.
  { injection Hd as ->. by rewrite list_to_set_nil, (right_id_L ∅ (∪)). }
  cbn [dict_comprehension] in Hd. rewrite Hgk, bind_returned in Hd.
  rewrite (IH _ Hd), dom_insert_L, list_to_set_cons.
  by rewrite (comm_L (∪) {[k]} (dom d0)), <- (assoc_L (∪)).
Qed.

Lemma size_list_to_set_le (names : list string) :
  base.size (list_to_set names : gset string) ≤ length names.
Proof.
  induction names as [|k names IH]; [by rewrite list_to_set_nil, size_empty|].
  rewrite list_to_set_cons. cbn [length].
  destruct (decide (k ∈ (list_to_set names : gset string))) as [Hin|Hout].
  - rewrite subseteq_union_1_L by (by apply singleton_subseteq_l). lia.
  - rewrite size_union by (by apply disjoint_singleton_l).
    rewrite size_singleton. lia.
Qed.

Lemma keyed_filter_one (features : list feature) (names : list string)
    (i : nat) (g : feature) (k : string) :
  keyed features names → NoDup names →
  features !! i = Some g → names !! i = Some k →
  filter (λ g', get_county_name_from_geo_obj py_int states g' = Returned k) features = [g].
Proof.
  intros HF. revert i.
  induction HF as [|g0 k0 features names Hgk HF IH]; intros i Hnd Hg Hk; [done|].
  apply NoDup_cons in Hnd as [Hk0 Hnd]. destruct i as [|i].
  - injection Hg as ->. injection Hk as ->.
    rewrite filter_cons_True by done. f_equal.
    apply filter_none. intros g' Hg' Hgk'.
    destruct (keyed_elem _ _ _ HF Hg') as (k' & Hk' & Hgk''). congruence.
  - rewrite filter_cons_False; [by apply (IH i)|].
    intros Heq. apply Hk0. rewrite Hgk in Heq. injection Heq as ->.
    apply list_elem_of_lookup. by exists i.
Qed.

(** X3.  When every feature has a key, the keys of the table are the
    keys of the features and the table has at most one entry per feature;
    when the keys are pairwise different it has exactly one entry per
    feature and every feature is found under its own key. *)
Theorem counties_geojson_distinct_names
    (features : list feature) (names : list string) :
  keyed features names →
  ∃ d,
    counties_geojson py_int states features = Returned d ∧
    dom d = list_to_set names ∧
    base.size d ≤ length features ∧
    (NoDup names →
       base.size d = length features ∧
       ∀ i g k, features !! i = Some g → names !! i = Some k →
         getitem d k = Returned g).
Proof.
  intros HF.
  destruct (dict_comprehension_returns py_int states features ∅) as [d Hd].
  { intros g Hg. destruct (keyed_elem _ _ _ HF Hg) as (k & _ & Hk). by exists k. }
  exists d. split; [exact Hd|].
  assert (Hdom : dom d = list_to_set names).
  { by rewrite (dict_comprehension_dom _ _ _ _ HF Hd), dom_empty_L, (left_id_L ∅ (∪)). }
  pose proof (Forall2_length _ _ _ HF) as Hlen.
  split; [exact Hdom|]. split.
  { rewrite <- size_dom, Hdom, Hlen. apply size_list_to_set_le. }
  intros Hnd. split.
  { rewrite <- size_dom, Hdom, Hlen. by apply size_list_to_set. }
  intros i g k Hg Hk. unfold getitem.
  rewrite (dict_comprehension_lookup _ _ _ _ _ k Hd).
  by rewrite (keyed_filter_one _ _ i g k HF Hnd Hg Hk).
Qed.
End CountyTableDistinct.

Section CountyTableDistinctExamples.
Lemma counties_geojson_distinct_names_witness :
  ∃ d,
    counties_geojson only_36 new_york_only [manhattan_1; kings] = Returned d ∧
    dom d = list_to_set ["New York: New York"; "New York: Kings"] ∧
    base.size d ≤ length [manhattan_1; kings] ∧
    (NoDup ["New York: New York"; "New York: Kings"] →
       base.size d = length [manhattan_1; kings] ∧
       ∀ i g k, [manhattan_1; kings] !! i = Some g →
         ["New York: New York"; "New York: Kings"] !! i = Some k →
         getitem d k = Returned g).
Proof.
  apply (counties_geojson_distinct_names only_36 new_york_only
           [manhattan_1; kings] ["New York: New York"; "New York: Kings"]).
  repeat constructor.
Defined.
End CountyTableDistinctExamples.

(** ** The bounds of a geometry *)

Section Bounds.
Local Open Scope Q_scope.

Lemma foldr_Qmin_le (x : Q) (l : list Q) :
  foldr Qmin x l <= x ∧ ∀ y, y ∈ l → foldr Qmin x l <= y.
Proof.
  induction l as [|z l [IH1 IH2]]; cbn [foldr].
  { split; [apply Qle_refl|]. intros y Hy. by apply elem_of_nil in Hy. }
  split.
  - eapply Qle_trans; [apply Q.le_min_r|exact IH1].
  - intros y Hy. apply elem_of_cons in Hy as [->|Hy].
    + apply Q.le_min_l.
    + eapply Qle_trans; [apply Q.le_min_r|by apply IH2].
Qed.

Lemma foldr_Qmax_ge (x : Q) (l : list Q) :
  x <= foldr Qmax x l ∧ ∀ y, y ∈ l → y <= foldr Qmax x l.
Proof.
  induction l as [|z l [IH1 IH2]]; cbn [foldr].
  { split; [apply Qle_refl|]. intros y Hy. by apply elem_of_nil in Hy. }
  split.
  - eapply Qle_trans; [exact IH1|apply Q.le_max_r].
  - intros y Hy. apply elem_of_cons in Hy as [->|Hy].
    + apply Q.le_max_l.
    + eapply Qle_trans; [by apply IH2|apply Q.le_max_r].
Qed.

Lemma foldr_Qmin_elem (x : Q) (l : list Q) : foldr Qmin x l ∈ x :: l.
Proof.
  induction l as [|z l IH]; cbn [foldr]; [left|].
  assert (Hmin : Qmin z (foldr Qmin x l) = z ∨
                 Qmin z (foldr Qmin x l) = foldr Qmin x l)
    by (unfold Qmin, GenericMinMax.gmin; destruct (_ ?= _); auto).
  destruct Hmin as [->| ->].
  - right; left.
  - apply elem_of_cons in IH as [->|IH]; [left|right; by right].
Qed.

Lemma foldr_Qmax_elem (x : Q) (l : list Q) : foldr Qmax x l ∈ x :: l.
Proof.
  induction l as [|z l IH]; cbn [foldr]; [left|].
  assert (Hmax : Qmax z (foldr Qmax x l) = z ∨
                 Qmax z (foldr Qmax x l) = foldr Qmax x l)
    by (unfold Qmax, GenericMinMax.gmax; destruct (_ ?= _); auto).
  destruct Hmax as [->| ->].
  - right; left.
  - apply elem_of_cons in IH as [->|IH]; [left|right; by right].
Qed.

Lemma bounds_enclose (ny_shape : geometry) (lon_min lat_min lon_max lat_max : Q) :
  bounds ny_shape = Returned (lon_min, lat_min, lon_max, lat_max) →
  (∀ x y, (x, y) ∈ shell_coords ny_shape →
     lon_min <= x ∧ x <= lon_max ∧ lat_min <= y ∧ y <= lat_max) ∧
  lon_min ∈ (shell_coords ny_shape).*1 ∧ lon_max ∈ (shell_coords ny_shape).*1 ∧
  lat_min ∈ (shell_coords ny_shape).*2 ∧ lat_max ∈ (shell_coords ny_shape).*2.
Proof.
  unfold bounds. destruct (shell_coords ny_shape) as [|[x0 y0] ps] eqn:Hc; [done|].
  intros [= <- <- <- <-].
  destruct (foldr_Qmin_le x0 ps.*1) as [Hx1 Hx2].
  destruct (foldr_Qmax_ge x0 ps.*1) as [Hx3 Hx4].
  destruct (foldr_Qmin_le y0 ps.*2) as [Hy1 Hy2].
  destruct (foldr_Qmax_ge y0 ps.*2) as [Hy3 Hy4].
  split.
  { intros x y Hxy. apply elem_of_cons in Hxy as [[= -> ->]|Hxy]; [done|].
    assert (x ∈ ps.*1) by (apply list_elem_of_fmap; by exists (x, y)).
    assert (y ∈ ps.*2) by (apply list_elem_of_fmap; by exists (x, y)).
    repeat split; auto. }
  cbn [fmap list_fmap fst snd].
  split; [apply foldr_Qmin_elem|]. split; [apply foldr_Qmax_elem|].
  split; [apply foldr_Qmin_elem|]. apply foldr_Qmax_elem.
Qed.

(** X4.  When [bounds] gives a box, the box encloses every coordinate of
    the shell of every polygon of the geometry, each of its four sides
    passes through one of them, and it is not inverted; the coordinates
    of holes play no part. *)
Theorem bounds_smallest_box (ny_shape : geometry) (lon_min lat_min lon_max lat_max : Q) :
  bounds ny_shape = Returned (lon_min, lat_min, lon_max, lat_max) →
  (∀ polygon shell holes x y,
     polygon ∈ ny_shape → polygon = shell :: holes → (x, y) ∈ shell →
     lon_min <= x ∧ x <= lon_max ∧ lat_min <= y ∧ y <= lat_max) ∧
  lon_min ∈ (shell_coords ny_shape).*1 ∧ lon_max ∈ (shell_coords ny_shape).*1 ∧
  lat_min ∈ (shell_coords ny_shape).*2 ∧ lat_max ∈ (shell_coords ny_shape).*2 ∧
  lon_min <= lon_max ∧ lat_min <= lat_max.
Proof.
  intros Hb. destruct (bounds_enclose _ _ _ _ _ Hb) as (Hin & Hx1 & Hx2 & Hy1 & Hy2).
  split.
  { intros polygon shell holes x y Hp -> Hxy. apply Hin.
    unfold shell_coords. apply list_elem_of_bind. by exists (shell :: holes). }
  do 4 (split; [done|]).
  apply list_elem_of_fmap in Hx1 as ([x1 y1] & -> & Hp1).
  apply list_elem_of_fmap in Hy1 as ([x2 y2] & -> & Hp2).
  destruct (Hin _ _ Hp1) as (_ & ? & _). destruct (Hin _ _ Hp2) as (_ & _ & _ & ?).
  done.
Qed.

Lemma bounds_smallest_box_witness :
  (∀ polygon shell holes x y,
     polygon ∈ square_with_stray_hole → polygon = shell :: holes → (x, y) ∈ shell →
     0 <= x ∧ x <= 4 ∧ 0 <= y ∧ y <= 4) ∧
  0 ∈ (shell_coords square_with_stray_hole).*1 ∧
  4 ∈ (shell_coords square_with_stray_hole).*1 ∧
  0 ∈ (shell_coords square_with_stray_hole).*2 ∧
  4 ∈ (shell_coords square_with_stray_hole).*2 ∧
  0 <= 4 ∧ 0 <= 4.
Proof.
  apply (bounds_smallest_box square_with_stray_hole 0 0 4 4).
  reflexivity.
Defined.
End Bounds.

(** ** Points, pixels and windows *)

Section Pixels.
Local Open Scope Q_scope.

Lemma north_up_window_covers
    (rf : DatasetReader) (lon_min lat_min lon_max lat_max x y : Q) :
  Affine.north_up (affine rf) →
  lon_min <= x ∧ x <= lon_max →
  lat_min <= y ∧ y <= lat_max →
  ∃ w, raster_window rf (lon_min, lat_min, lon_max, lat_max) = Returned w ∧
       window_covers rf w x y.
Proof.
  intros Hn [Hx1 Hx2] [Hy1 Hy2].
  pose proof (north_up_axis_aligned _ Hn) as Ht.
  destruct Hn as (_ & _ & Ha & He).
  eexists. split; [by apply raster_window_axis_aligned|].
  destruct (pixel_coords_axis_aligned rf x y Ht) as (col & row & Hxy & Hc & Hr).
  exists col, row. split; [done|].
  unfold col_start, col_stop, row_start, row_stop; cbn [fst snd].
  set (t := affine rf) in *.
  assert ((lon_min - Affine.c t) / Affine.a t <= col)
    by (rewrite Hc; apply Qdiv_pos_mono; lra).
  assert (col <= (lon_max - Affine.c t) / Affine.a t)
    by (rewrite Hc; apply Qdiv_pos_mono; lra).
  assert ((lat_max - Affine.f t) / Affine.e t <= row)
    by (rewrite Hr; apply Qdiv_neg_anti; lra).
  assert (row <= (lat_min - Affine.f t) / Affine.e t)
    by (rewrite Hr; apply Qdiv_neg_anti; lra).
  pose proof (Qfloor_bounds ((lon_min - Affine.c t) / Affine.a t)).
  pose proof (Qfloor_bounds ((lon_max - Affine.c t) / Affine.a t)).
  pose proof (Qfloor_bounds ((lat_min - Affine.f t) / Affine.e t)).
  pose proof (Qfloor_bounds ((lat_max - Affine.f t) / Affine.e t)).
  rewrite !inject_Z_plus. change (inject_Z 1) with 1.
  repeat split; lra.
Qed.

(** X6.  On a north-up grid, the window computed from the bounds of a
    geometry holds every vertex of the shells of the geometry: each
    coordinate pair of the shell of each of its polygons falls on a pixel
    of the window. *)
Theorem window_holds_every_vertex
    (rf : DatasetReader) (ny_shape : geometry) (box : bbox) :
  Affine.north_up (affine rf) →
  bounds ny_shape = Returned box →
  ∃ w, raster_window rf box = Returned w ∧
       ∀ polygon shell holes x y,
         polygon ∈ ny_shape → polygon = shell :: holes → (x, y) ∈ shell →
         window_covers rf w x y.
Proof.
  intros Hn Hbox. destruct box as [[[lon_min lat_min] lon_max] lat_max].
  destruct (bounds_enclose _ _ _ _ _ Hbox) as [Hin _].
  pose proof (north_up_axis_aligned _ Hn) as Ht.
  eexists. split; [by apply raster_window_axis_aligned|].
  intros polygon shell holes x y Hp -> Hxy.
  destruct (Hin x y) as (Hx1 & Hx2 & Hy1 & Hy2).
  { unfold shell_coords. apply list_elem_of_bind. by exists (shell :: holes). }
  destruct (north_up_window_covers rf lon_min lat_min lon_max lat_max x y Hn)
    as (w & Hw & Hcov); [done|done|].
  rewrite (raster_window_axis_aligned _ _ _ _ _ Ht) in Hw. by injection Hw as <-.
Qed.

Lemma window_holds_every_vertex_witness :
  ∃ w, raster_window unit_grid (0, 0, 4, 4) = Returned w ∧
       ∀ polygon shell holes x y,
         polygon ∈ square_with_stray_hole → polygon = shell :: holes → (x, y) ∈ shell →
         window_covers unit_grid w x y.
Proof.
  apply (window_holds_every_vertex unit_grid square_with_stray_hole).
  - unfold Affine.north_up; simpl. repeat split; reflexivity.
  - reflexivity.
Defined.
End Pixels.

Section WindowSize.
Local Open Scope Q_scope.

(** X7.  On a north-up grid the window grows with the box: when one box
    lies inside another, its window lies inside the window of the
    other. *)
Theorem raster_window_monotone
    (rf : DatasetReader)
    (lon_min lat_min lon_max lat_max : Q)
    (lon_min' lat_min' lon_max' lat_max' : Q) :
  Affine.north_up (affine rf) →
  lon_min' <= lon_min → lon_max <= lon_max' →
  lat_min' <= lat_min → lat_max <= lat_max' →
  ∃ w w',
    raster_window rf (lon_min, lat_min, lon_max, lat_max) = Returned w ∧
    raster_window rf (lon_min', lat_min', lon_max', lat_max') = Returned w' ∧
    (row_start w' <= row_start w)%Z ∧ (row_stop w <= row_stop w')%Z ∧
    (col_start w' <= col_start w)%Z ∧ (col_stop w <= col_stop w')%Z.
Proof.
  intros Hn Hx1 Hx2 Hy1 Hy2.
  pose proof (north_up_axis_aligned _ Hn) as Ht.
  destruct Hn as (_ & _ & Ha & He).
  do 2 eexists. rewrite !(raster_window_axis_aligned _ _ _ _ _ Ht).
  do 2 (split; [reflexivity|]).
  unfold row_start, row_stop, col_start, col_stop; cbn [fst snd].
  assert (Hmono : ∀ p q, p <= q →
            (Qfloor (p / Affine.a (affine rf)) <= Qfloor (q / Affine.a (affine rf)))%Z)
    by (intros p q Hpq; by apply Qfloor_resp_le, Qdiv_pos_mono).
  assert (Hanti : ∀ p q, p <= q →
            (Qfloor (q / Affine.e (affine rf)) <= Qfloor (p / Affine.e (affine rf)))%Z)
    by (intros p q Hpq; by apply Qfloor_resp_le, Qdiv_neg_anti).
  split; [apply Hanti; lra|]. split; [apply Z.add_le_mono_r, Hanti; lra|].
  split; [apply Hmono; lra|]. apply Z.add_le_mono_r, Hmono; lra.
Qed.

Lemma raster_window_monotone_witness :
  ∃ w w',
    raster_window unit_grid (1 # 2, -(5 # 2), 5 # 2, -(1 # 2)) = Returned w ∧
    raster_window unit_grid (0, -3, 3, 0) = Returned w' ∧
    (row_start w' <= row_start w)%Z ∧ (row_stop w <= row_stop w')%Z ∧
    (col_start w' <= col_start w)%Z ∧ (col_stop w <= col_stop w')%Z.
Proof.
  apply (raster_window_monotone unit_grid).
  - unfold Affine.north_up; simpl. repeat split; reflexivity.
  - vm_compute. discriminate.
  - vm_compute. discriminate.
  - vm_compute. discriminate.
  - vm_compute. discriminate.
Defined.

Lemma floor_span (s p q : Q) :
  0 < s →
  q - p < s * inject_Z (Qfloor (q / s) + 1 - Qfloor (p / s)) ∧
  s * inject_Z (Qfloor (q / s) + 1 - Qfloor (p / s)) < q - p + 2 * s.
Proof.
  intros Hs.
  destruct (Qfloor_bounds (p / s)) as [Hp1 Hp2].
  destruct (Qfloor_bounds (q / s)) as [Hq1 Hq2].
  assert (Ep : s * (p / s) == p) by (field; lra).
  assert (Eq : s * (q / s) == q) by (field; lra).
  unfold Z.sub. rewrite !inject_Z_plus, inject_Z_opp. change (inject_Z 1) with 1.
  split; nra.
Qed.

(** X8.  On a north-up grid the size of the window follows the size of
    the box: the columns of the window span more than the width of the
    box and less than the width plus two pixels, and the rows likewise
    for its height. *)
Theorem raster_window_size
    (rf : DatasetReader) (lon_min lat_min lon_max lat_max : Q) :
  Affine.north_up (affine rf) →
  ∃ w,
    raster_window rf (lon_min, lat_min, lon_max, lat_max) = Returned w ∧
    let nrows := inject_Z (fst (window_shape w)) in
    let ncols := inject_Z (snd (window_shape w)) in
    let a := Affine.a (affine rf) in
    let e := Affine.e (affine rf) in
    lon_max - lon_min < a * ncols ∧ a * ncols < lon_max - lon_min + 2 * a ∧
    lat_max - lat_min < - e * nrows ∧ - e * nrows < lat_max - lat_min + 2 * - e.
Proof.
  intros Hn. pose proof (north_up_axis_aligned _ Hn) as Ht.
  destruct Hn as (_ & _ & Ha & He).
  eexists. split; [by apply raster_window_axis_aligned|].
  unfold window_shape, row_start, row_stop, col_start, col_stop; cbn [fst snd].
  set (a := Affine.a (affine rf)) in *. set (e := Affine.e (affine rf)) in *.
  destruct (floor_span a (lon_min - Affine.c (affine rf))
              (lon_max - Affine.c (affine rf)) Ha) as [Hc1 Hc2].
  assert (Hneg : 0 < - e) by lra.
  destruct (floor_span (- e) (- (lat_max - Affine.f (affine rf)))
              (- (lat_min - Affine.f (affine rf))) Hneg) as [Hr1 Hr2].
  assert (Eneg : ∀ z, - z / - e == z / e) by (intros z; field; lra).
  rewrite !(Qfloor_comp _ _ (Eneg _)) in Hr1, Hr2.
  repeat split; lra.
Qed.

Lemma raster_window_size_witness :
  ∃ w,
    raster_window arcsec15_grid (-(7403 # 100), 4068 # 100, -(7390 # 100), 4088 # 100)
      = Returned w ∧
    let nrows := inject_Z (fst (window_shape w)) in
    let ncols := inject_Z (snd (window_shape w)) in
    let a := Affine.a (affine arcsec15_grid) in
    let e := Affine.e (affine arcsec15_grid) in
    -(7390 # 100) - -(7403 # 100) < a * ncols ∧
    a * ncols < -(7390 # 100) - -(7403 # 100) + 2 * a ∧
    (4088 # 100) - (4068 # 100) < - e * nrows ∧
    - e * nrows < (4088 # 100) - (4068 # 100) + 2 * - e.
Proof.
  apply (raster_window_size arcsec15_grid).
  unfold Affine.north_up; simpl. repeat split; reflexivity.
Defined.

(** X9.  On a north-up grid the mapping of the window puts every cell of
    the window's array less than one pixel east and less than one pixel
    south of the pixel of the raster that the cell is read from: the
    mask and the pixel array agree to within a pixel, not exactly. *)
Theorem ny_affine_alignment
    (rf : DatasetReader) (lon_min lat_min lon_max lat_max : Q) (col row : Q) :
  Affine.north_up (affine rf) →
  ∃ w,
    raster_window rf (lon_min, lat_min, lon_max, lat_max) = Returned w ∧
    let local := Affine.mul (ny_affine (affine rf) lon_min lat_max) (col, row) in
    let global := Affine.mul (affine rf)
                    (inject_Z (col_start w) + col, inject_Z (row_start w) + row) in
    0 <= fst local - fst global ∧ fst local - fst global < Affine.a (affine rf) ∧
    Affine.e (affine rf) < snd local - snd global ∧ snd local - snd global <= 0.
Proof.
  intros Hn. pose proof (north_up_axis_aligned _ Hn) as Ht.
  destruct Hn as (Hb & Hd & Ha & He).
  eexists. split; [by apply raster_window_axis_aligned|].
  unfold ny_affine, Affine.mul, col_start, row_start;
    cbn [fst snd Affine.a Affine.b Affine.c Affine.d Affine.e Affine.f].
  set (u := (lon_min - Affine.c (affine rf)) / Affine.a (affine rf)).
  set (v := (lat_max - Affine.f (affine rf)) / Affine.e (affine rf)).
  assert (Hu : Affine.a (affine rf) * u == lon_min - Affine.c (affine rf))
    by (unfold u; field; lra).
  assert (Hv : Affine.e (affine rf) * v == lat_max - Affine.f (affine rf))
    by (unfold v; field; lra).
  destruct (Qfloor_bounds u) as [Hu1 Hu2]. destruct (Qfloor_bounds v) as [Hv1 Hv2].
  rewrite Hb, Hd. repeat split; nra.
Qed.

Lemma ny_affine_alignment_witness :
  ∃ w,
    raster_window unit_grid (1 # 2, -(5 # 2), 5 # 2, -(1 # 2)) = Returned w ∧
    let local := Affine.mul (ny_affine (affine unit_grid) (1 # 2) (-(1 # 2))) (1, 2) in
    let global := Affine.mul (affine unit_grid)
                    (inject_Z (col_start w) + 1, inject_Z (row_start w) + 2) in
    0 <= fst local - fst global ∧ fst local - fst global < Affine.a (affine unit_grid) ∧
    Affine.e (affine unit_grid) < snd local - snd global ∧ snd local - snd global <= 0.
Proof.
  apply (ny_affine_alignment unit_grid).
  unfold Affine.north_up; simpl. repeat split; reflexivity.
Defined.
End WindowSize.

(** ** The mask, cell by cell *)

Section Grid.
Variable covers : Affine.t → geometry → nat → nat → bool.

Lemma bind_singleton_fmap {A B} (g : A → B) (l : list A) :
  l ≫= (λ x, [g x]) = g <$> l.
Proof. induction l as [|x l IH]; [done|]. cbn. by rewrite IH. Qed.

Lemma grid_lookup_from {A} (f : nat → nat → A) (s rows cols row col : nat) :
  row < rows → col < cols →
  (r ← seq s rows; c ← seq 0 cols; [f r c]) !! (row * cols + col)
    = Some (f (s + row) col).
Proof.
  revert s row. induction rows as [|rows IH]; intros s row Hrow Hcol; [lia|].
  cbn [seq]. change (mbind ?k (?x :: ?l)) with (k x ++ mbind k l).
  destruct row as [|row].
  - rewrite lookup_app_l by (by rewrite length_bind_singleton, length_seq).
    rewrite bind_singleton_fmap, list_lookup_fmap, lookup_seq_lt by done.
    cbn. by rewrite Nat.add_0_r.
  - rewrite lookup_app_r by (rewrite length_bind_singleton, length_seq; lia).
    rewrite length_bind_singleton, length_seq.
    replace (S row * cols + col - cols) with (row * cols + col) by lia.
    rewrite IH by lia. f_equal. f_equal. lia.
Qed.

Lemma grid_lookup {A} (f : nat → nat → A) (rows cols row col : nat) :
  row < rows → col < cols →
  (r ← seq 0 rows; c ← seq 0 cols; [f r c]) !! (row * cols + col) = Some (f row col).
Proof. intros. by rewrite grid_lookup_from. Qed.

Lemma grid_elem {A} (f : nat → nat → A) (rows cols : nat) (x : A) :
  x ∈ (r ← seq 0 rows; c ← seq 0 cols; [f r c]) →
  ∃ row col, row < rows ∧ col < cols ∧ x = f row col.
Proof.
  intros Hx. apply list_elem_of_bind in Hx as (row & Hx & Hrow).
  apply list_elem_of_bind in Hx as (col & Hx & Hcol).
  apply list_elem_of_singleton in Hx as ->.
  apply elem_of_seq in Hrow, Hcol. exists row, col.
  split; [lia|]. split; [lia|done].
Qed.

Lemma at_cell_lt {A} (arr : ndarray A) (row col : nat) (x : A) :
  at_cell arr row col = Some x →
  row < fst (shape arr) ∧ col < snd (shape arr) ∧
  flat arr !! (row * snd (shape arr) + col) = Some x.
Proof.
  unfold at_cell. destruct (_ && _) eqn:E; [|done].
  apply andb_true_iff in E as [?%Nat.ltb_lt ?%Nat.ltb_lt]. done.
Qed.

Lemma at_cell_in {A} (arr : ndarray A) (row col : nat) :
  row < fst (shape arr) → col < snd (shape arr) →
  at_cell arr row col = flat arr !! (row * snd (shape arr) + col).
Proof.
  intros Hr Hc. unfold at_cell.
  apply Nat.ltb_lt in Hr, Hc. by rewrite Hr, Hc.
Qed.

Lemma ny_mask_cells (ny_shape : geometry) (arr : ndarray Q) (t : Affine.t)
    (msk : ndarray Z) :
  ny_mask covers ny_shape arr t = Returned msk →
  shape msk = shape arr ∧
  (∀ row col, row < fst (shape arr) → col < snd (shape arr) →
     at_cell msk row col = Some (if covers t ny_shape row col then 0 else 1)%Z) ∧
  Forall (λ v, v = 0 ∨ v = 1)%Z (flat msk).
Proof.
  unfold ny_mask, rasterize. case_match; [done|]. intros [= <-].
  cbn [shape flat]. split; [done|]. split.
  - intros row col Hr Hc. rewrite at_cell_in by done. cbn [shape flat].
    rewrite grid_lookup by done. cbn. by destruct (covers _ _ _ _).
  - apply Forall_forall. intros v Hv.
    apply grid_elem in Hv as (row & col & _ & _ & ->).
    cbn. destruct (covers _ _ _ _); auto.
Qed.

End Grid.

(** ** The picture of the lights inside the county (cell 26) *)

Section Picture.
Variable covers : Affine.t → geometry → nat → nat → bool.
Local Open Scope Q_scope.

Lemma broadcast_axis_same (n : nat) : broadcast_axis n n = Some n.
Proof. unfold broadcast_axis. by rewrite Nat.eqb_refl. Qed.

Lemma stretched_at_cell {A} (d : A) (arr : ndarray A) (row col : nat) (x : A) :
  at_cell arr row col = Some x → stretched d arr row col = x.
Proof.
  intros H. apply at_cell_lt in H as (Hr & Hc & Hx). unfold stretched.
  destruct (Nat.eqb_spec (fst (shape arr)) 1) as [E1|_];
    destruct (Nat.eqb_spec (snd (shape arr)) 1) as [E2|_].
  - replace row with 0%nat in Hx by lia. replace col with 0%nat in Hx by lia.
    by rewrite Hx.
  - replace row with 0%nat in Hx by lia. by rewrite Hx.
  - replace col with 0%nat in Hx by lia. by rewrite Hx.
  - by rewrite Hx.
Qed.

Lemma lights_inside_same_shape (arr : ndarray Q) (msk : ndarray Z) :
  shape msk = shape arr →
  lights_inside arr msk =
    Returned (Ndarray (shape arr)
                (row ← seq 0 (fst (shape arr));
                 col ← seq 0 (snd (shape arr));
                 [stretched 0 arr row col
                  * inject_Z (stretched 0%Z (uint8_rsub 1 msk) row col)])).
Proof.
  intros Hshape. unfold lights_inside, np_multiply. cbn [uint8_rsub shape].
  rewrite Hshape, !broadcast_axis_same. by destruct (shape arr).
Qed.

(** X11.  The picture [ny_raster_array * (1 - ny_mask)] of a pixel array
    and the mask made for it has the shape of the pixel array; a pixel
    the rasterizer finds covered by the county keeps its value and every
    other pixel is 0. *)
Theorem lights_inside_keeps_county
    (ny_shape : geometry) (arr : ndarray Q) (t : Affine.t) (msk : ndarray Z) :
  ny_mask covers ny_shape arr t = Returned msk →
  ∃ out,
    lights_inside arr msk = Returned out ∧
    shape out = shape arr ∧
    ∀ row col x, at_cell arr row col = Some x →
      ∃ y, at_cell out row col = Some y ∧
           y == (if covers t ny_shape row col then x else 0).
Proof.
  intros Hmsk. destruct (ny_mask_cells covers _ _ _ _ Hmsk) as (Hshape & Hcells & _).
  rewrite (lights_inside_same_shape _ _ Hshape).
  eexists. split; [reflexivity|]. split; [reflexivity|].
  intros row col x Hx. pose proof (at_cell_lt _ _ _ _ Hx) as (Hr & Hc & _).
  rewrite at_cell_in by done. cbn [shape flat].
  rewrite grid_lookup by done. eexists. split; [reflexivity|].
  rewrite (stretched_at_cell _ _ _ _ _ Hx).
  assert (Hm : at_cell (uint8_rsub 1 msk) row col
               = Some ((1 - (if covers t ny_shape row col then 0 else 1)) `mod` 256)%Z).
  { specialize (Hcells row col Hr Hc).
    apply at_cell_lt in Hcells as (Hr' & Hc' & Hv).
    rewrite at_cell_in by done. cbn [uint8_rsub shape flat].
    by rewrite list_lookup_fmap, Hv. }
  rewrite (stretched_at_cell _ _ _ _ _ Hm).
  destruct (covers t ny_shape row col).
  - change (inject_Z ((1 - 0) `mod` 256)) with 1. ring.
  - change (inject_Z ((1 - 1) `mod` 256)) with 0. ring.
Qed.
End Picture.

Section PictureExamples.
Local Open Scope Q_scope.

Lemma lights_inside_keeps_county_witness :
  ∃ msk out,
    ny_mask covers_first_column triangle two_pixels (affine unit_grid) = Returned msk ∧
    lights_inside two_pixels msk = Returned out ∧
    shape out = shape two_pixels ∧
    ∀ row col x, at_cell two_pixels row col = Some x →
      ∃ y, at_cell out row col = Some y ∧
           y == (if covers_first_column (affine unit_grid) triangle row col
                 then x else 0).
Proof.
  eexists. 
  destruct (lights_inside_keeps_county covers_first_column triangle two_pixels
              (affine unit_grid) _ eq_refl) as (out & H).
  exists out. split; [reflexivity|]. exact H.
Defined.
End PictureExamples.

(** ** The statistics of the cells left in *)

Section Reductions.
Local Open Scope Q_scope.

Lemma compressed_elem (m : MaskedArray) (x : Q) :
  x ∈ compressed m ↔
  ∃ k, flat (data m) !! k = Some x ∧ flat (mask m) !! k = Some false.
Proof.
  unfold compressed. rewrite list_elem_of_fmap. split.
  - intros ([x' h] & -> & Hin). apply list_elem_of_filter in Hin as [Hh Hin].
    cbn in Hh. subst h. apply list_elem_of_lookup in Hin as [k Hk].
    apply lookup_zip_with_Some in Hk as (x'' & h & [= <- <-] & Hx & Hh).
    by exists k.
  - intros (k & Hx & Hh). exists (x, false). split; [done|].
    apply list_elem_of_filter. split; [done|].
    apply list_elem_of_lookup. exists k.
    apply lookup_zip_with_Some. by exists x, false.
Qed.

Lemma ma_min_value (m : MaskedArray) (lo : Q) :
  ma_min m = Returned (Value lo) →
  ∃ x xs, compressed m = x :: xs ∧ lo = foldr Qmin x xs.
Proof.
  unfold ma_min. destruct (flat (data m)); [done|].
  destruct (compressed m) as [|x xs]; [done|]. intros [= <-]. by exists x, xs.
Qed.

Lemma ma_max_value (m : MaskedArray) (hi : Q) :
  ma_max m = Returned (Value hi) →
  ∃ x xs, compressed m = x :: xs ∧ hi = foldr Qmax x xs.
Proof.
  unfold ma_max. destruct (flat (data m)); [done|].
  destruct (compressed m) as [|x xs]; [done|]. intros [= <-]. by exists x, xs.
Qed.

Lemma min_max_bounds (m : MaskedArray) (lo hi : Q) :
  ma_min m = Returned (Value lo) →
  ma_max m = Returned (Value hi) →
  lo ∈ compressed m ∧ hi ∈ compressed m ∧
  ∀ x, x ∈ compressed m → lo <= x ∧ x <= hi.
Proof.
  intros Hlo Hhi.
  destruct (ma_min_value _ _ Hlo) as (x & xs & Hc & ->).
  destruct (ma_max_value _ _ Hhi) as (x' & xs' & Hc' & ->).
  rewrite Hc in Hc'. injection Hc' as <- <-. rewrite Hc.
  split; [apply foldr_Qmin_elem|]. split; [apply foldr_Qmax_elem|].
  destruct (foldr_Qmin_le x xs) as [H1 H2]. destruct (foldr_Qmax_ge x xs) as [H3 H4].
  intros y Hy. apply elem_of_cons in Hy as [->|Hy]; [done|]. split; auto.
Qed.

(** X13.  When [min] and [max] give numbers, each is the value of a cell
    the mask leaves in, and the value of every cell the mask leaves in
    lies between them; the cells the mask leaves out play no part. *)
Theorem ma_min_max_over_cells_left_in (m : MaskedArray) (lo hi : Q) :
  ma_min m = Returned (Value lo) →
  ma_max m = Returned (Value hi) →
  (∃ k, flat (data m) !! k = Some lo ∧ flat (mask m) !! k = Some false) ∧
  (∃ k, flat (data m) !! k = Some hi ∧ flat (mask m) !! k = Some false) ∧
  (∀ k x, flat (data m) !! k = Some x → flat (mask m) !! k = Some false →
     lo <= x ∧ x <= hi).
Proof.
  intros Hlo Hhi. destruct (min_max_bounds _ _ _ Hlo Hhi) as (H1 & H2 & H3).
  split; [by apply compressed_elem|]. split; [by apply compressed_elem|].
  intros k x Hx Hh. apply H3, compressed_elem. by exists k.
Qed.

End Reductions.

Section ReductionExamples.
Local Open Scope Q_scope.

Lemma ma_min_max_over_cells_left_in_witness :
  let m := {| data := two_pixels; mask := astype_bool all_inside |} in
  (∃ k, flat (data m) !! k = Some 3 ∧ flat (mask m) !! k = Some false) ∧
  (∃ k, flat (data m) !! k = Some 5 ∧ flat (mask m) !! k = Some false) ∧
  (∀ k x, flat (data m) !! k = Some x → flat (mask m) !! k = Some false →
     3 <= x ∧ x <= 5).
Proof.
  apply (ma_min_max_over_cells_left_in
           {| data := two_pixels; mask := astype_bool all_inside |} 3 5).
  - reflexivity.
  - reflexivity.
Defined.

End ReductionExamples.

(** ** The mask of a masked array *)

Section MaskInvariant.

Lemma join_replicate_singleton {A} (n : nat) (b : A) :
  mjoin (replicate n [b]) = replicate n b.
Proof.
  induction n as [|n IH]; [done|]. cbn [replicate].
  change (mjoin ([b] :: replicate n [b])) with ([b] ++ mjoin (replicate n [b])).
  by rewrite IH.
Qed.

(** X16.  Whatever [np.ma.array] accepts, the mask it stores has the
    shape of the data and, for a well-formed data array and mask, one
    flag per element of the data; a mask of a single flag that had
    another shape is that flag repeated for every element. *)
Theorem ma_array_mask_fits (arr : ndarray Q) (msk : ndarray bool) (m : MaskedArray) :
  ma_array arr msk = Returned m →
  well_formed arr →
  well_formed msk →
  data m = arr ∧
  shape (mask m) = shape arr ∧
  length (flat (mask m)) = length (flat arr) ∧
  (shape msk = shape arr → mask m = msk) ∧
  (∀ b, shape msk ≠ shape arr → flat msk = [b] →
     flat (mask m) = replicate (size arr) b).
Proof.
  unfold ma_array, well_formed. intros Hm Harr Hmsk.
  destruct (decide (shape msk = shape arr)) as [Hshape|Hshape].
  { injection Hm as <-. cbn [data mask].
    split; [done|]. split; [done|]. split; [|done].
    rewrite Harr, Hmsk. unfold size. by rewrite Hshape. }
  destruct (Nat.eqb_spec (size msk) 1) as [Hone|Hone].
  - injection Hm as <-. cbn [data mask np_resize shape flat].
    destruct (flat msk) as [|b [|b' l]] eqn:Hflat; cbn in Hmsk; try lia.
    fold (size arr).
    rewrite join_replicate_singleton, take_ge by (by rewrite length_replicate).
    split; [done|]. split; [done|].
    split; [by rewrite length_replicate|]. split; [done|].
    by intros b' _ [= ->].
  - destruct (Nat.eqb_spec (size msk) (size arr)) as [Hsame|Hsame]; [|done].
    injection Hm as <-. cbn [data mask np_reshape shape flat].
    split; [done|]. split; [done|]. split; [lia|]. split; [done|].
    intros b _ Hb. rewrite Hb in Hmsk. cbn in Hmsk. lia.
Qed.

(** X17.  The statistics come back as a value exactly when [np.ma.array]
    accepts the mask and the pixel array has an element; when it accepts
    the mask and the pixel array has none, [min] stops them with
    [ValueError]; they stop with no other error than that and
    [MaskError]. *)
Theorem masked_statistics_outcomes (arr : ndarray Q) (msk : ndarray Z) :
  ((∃ s, masked_statistics arr msk = Returned s) ↔
     (∃ m, ma_array arr (astype_bool msk) = Returned m) ∧ flat arr ≠ []) ∧
  (masked_statistics arr msk = Raised ValueError ↔
     (∃ m, ma_array arr (astype_bool msk) = Returned m) ∧ flat arr = []) ∧
  (∀ err, masked_statistics arr msk = Raised err →
     err = ValueError ∨ err = MaskError).
Proof.
  unfold masked_statistics.
  destruct (ma_array arr (astype_bool msk)) as [m|err] eqn:Hm.
  2:{ rewrite bind_raised. split; [|split].
      - split; [by intros [s ?]|by intros [[m ?] _]].
      - split; [|by intros [[m ?] _]]. intros [= ->].
        unfold ma_array in Hm. by repeat case_match.
      - intros err' [= <-]. right.
        unfold ma_array in Hm. repeat case_match; try done. by injection Hm as <-. }
  rewrite bind_returned. pose proof (ma_array_data _ _ _ Hm) as Hdata.
  unfold ma_min, ma_max. rewrite Hdata.
  destruct (flat arr) as [|x xs].
  - rewrite bind_raised. split; [|split].
    + split; [by intros [s ?]|by intros [_ ?]].
    + split; [intros _; split; [by exists m|done]|done].
    + intros err [= <-]. by left.
  - destruct (compressed m) as [|y ys]; rewrite !bind_returned.
    all: split; [|split]; [split; [intros _; split; [by exists m|done]|by eexists]
                          |split; [done|by intros [_ ?]]
                          |done].
Qed.
End MaskInvariant.

Section MaskInvariantExamples.
Lemma ma_array_mask_fits_witness :
  let m := {| data := two_pixels; mask := np_reshape (astype_bool column_mask) (1, 2) |} in
  data m = two_pixels ∧
  shape (mask m) = shape two_pixels ∧
  length (flat (mask m)) = length (flat two_pixels) ∧
  (shape (astype_bool column_mask) = shape two_pixels → mask m = astype_bool column_mask) ∧
  (∀ b, shape (astype_bool column_mask) ≠ shape two_pixels →
     flat (astype_bool column_mask) = [b] →
     flat (mask m) = replicate (size two_pixels) b).
Proof.
  apply (ma_array_mask_fits two_pixels (astype_bool column_mask)).
  - reflexivity.
  - reflexivity.
  - reflexivity.
Defined.
End MaskInvariantExamples.
